(** * DeepTrack feature graphs: the update / resolve protocol

    A shallow embedding of the two generations of the feature engine,
    [DeepTrack/Features.py] (module [Old]) and [deeptrack/features.py]
    (module [New]).  Python objects live in a store indexed by object
    identity; methods are functions in a state-and-exception monad; the
    depth of the Python call stack is a fuel argument whose exhaustion is
    Python's [RecursionError]. *)

From Stdlib Require Import ZArith QArith Qcanon String Lia.
From stdpp Require Import numbers option list gmap strings.

Open Scope string_scope.
Open Scope list_scope.
Open Scope nat_scope.

(** ** Exceptions and the state monad *)

Inductive exn :=
| AttributeError
| TypeError
| KeyError
| RecursionError
| Exception
| DanglingReference.   (* an identity with no object behind it: not reachable from Python *)

Inductive res (A : Type) :=
| Ok (a : A)
| Raise (e : exn).
Arguments Ok {A} a.
Arguments Raise {A} e.

Definition M (Σ A : Type) : Type := Σ → res (A * Σ).

Global Instance M_ret {Σ} : MRet (M Σ) := λ A a σ, Ok (a, σ).
Global Instance M_bind {Σ} : MBind (M Σ) :=
  λ A B k m σ, match m σ with
               | Ok (a, σ') => k a σ'
               | Raise e => Raise e
               end.
Definition raise {Σ A} (e : exn) : M Σ A := λ _, Raise e.

(** A computation that does not touch the store. *)
Definition lift {Σ A} (r : res A) : M Σ A :=
  λ σ, match r with
       | Ok a => Ok (a, σ)
       | Raise e => Raise e
       end.

(** What a call returned or raised, without the store it left. *)
Definition outcome {Σ A} (r : res (A * Σ)) : res A :=
  match r with
  | Ok (a, _) => Ok a
  | Raise e => Raise e
  end.
Definition modify {Σ} (f : Σ → Σ) : M Σ unit := λ σ, Ok (tt, f σ).

(** [for x in l: acc = body(acc, x)] *)
Fixpoint foldM {Σ A B} (body : B → A → M Σ B) (acc : B) (l : list A) : M Σ B :=
  match l with
  | [] => mret acc
  | x :: l' => acc' ← body acc x ; foldM body acc' l'
  end.

(** [for i, x in enumerate(l, start): acc = body(acc, i, x)] *)
Fixpoint foldM_i {Σ A B} (body : B → nat → A → M Σ B) (start : nat) (acc : B)
    (l : list A) : M Σ B :=
  match l with
  | [] => mret acc
  | x :: l' => acc' ← body acc start x ; foldM_i body (S start) acc' l'
  end.

(** [[f(x) for x in l]] *)
Fixpoint mapM {Σ A B} (f : A → M Σ B) (l : list A) : M Σ (list B) :=
  match l with
  | [] => mret []
  | x :: l' => y ← f x ; ys ← mapM f l' ; mret (y :: ys)
  end.

(** ** Values, dictionaries, arrays and images *)

(** Object identity ([id(obj)]). *)
Definition ident := nat.

Definition shape := (nat * nat)%type.
Definition ndarray := list (list Z).

(** Plain Python data: what a sampled parameter is, apart from the feature
    objects the newer engine also stores as parameters. *)
Inductive value :=
| VNone
| VInt (z : Z)
| VFloat (q : Qc)
| VStr (s : string)
| VArray (a : ndarray).

(** A [dict] with string keys: insertion order is kept. *)
Definition dict (A : Type) := list (string * A).

Fixpoint dict_get {A} (d : dict A) (key : string) : option A :=
  match d with
  | [] => None
  | (k, v) :: d' => if bool_decide (k = key) then Some v else dict_get d' key
  end.

(** [d[key] = v] *)
Fixpoint dict_set {A} (d : dict A) (key : string) (v : A) : dict A :=
  match d with
  | [] => [(key, v)]
  | (k, w) :: d' =>
      if bool_decide (k = key) then (k, v) :: d' else (k, w) :: dict_set d' key v
  end.

(** [d.update(other)] *)
Definition dict_update {A} (d other : dict A) : dict A :=
  fold_left (λ acc kv, dict_set acc kv.1 kv.2) other d.

Definition dict_remove {A} (d : dict A) (key : string) : dict A :=
  filter (λ kv, kv.1 ≠ key) d.

Definition keys_clash {A B} (d1 : dict A) (d2 : dict B) : bool :=
  existsb (λ kv, bool_decide (is_Some (dict_get d2 kv.1))) d1.

(** Numbers as Python compares them. *)
Definition number (v : value) : option Qc :=
  match v with
  | VInt z => Some (Q2Qc (inject_Z z))
  | VFloat q => Some q
  | _ => None
  end.

(** [np.zeros(shape)] *)
Definition zeros (sh : shape) : ndarray := replicate sh.1 (replicate sh.2 0%Z).

(** Modelled from the spec: the class [Image] ([DeepTrack/Image.py],
    [deeptrack/image.py]) is imported by both engines and is not part of the
    sources.  A canvas is a payload array with an ordered provenance list;
    constructing it from a raw array gives an empty provenance, constructing it
    from a canvas keeps the canvas, and [append] adds one provenance record at
    the end. *)
Record Image (V : Type) := mkImage {
  payload : ndarray;
  provenance : list (dict V);
}.
Arguments mkImage {V} payload provenance.
Arguments payload {V} i.
Arguments provenance {V} i.

Definition Image_of_array {V} (a : ndarray) : Image V := mkImage a [].

Definition append {V} (im : Image V) (record : dict V) : Image V :=
  mkImage (payload im) (provenance im ++ [record]).

(** Elementwise [a + b] on arrays of the same shape. *)
Definition array_add (a b : ndarray) : ndarray :=
  zip_with (zip_with Z.add) a b.

(** ** The older engine: [DeepTrack/Features.py] *)

Module Old.

(** Modelled from the spec: the class [Distribution]
    ([DeepTrack/Distributions.py]) is not part of the sources.  A parameter is
    a cell with a sampling rule, either a constant or a sampler fed by one
    uniform draw, and a current value that only [__update__] overwrites. *)
Inductive sampling_rule :=
| Constant (v : value)
| Sampler (f : Qc → value).

Record Distribution := mkDistribution {
  rule : sampling_rule;
  current_value : value;
}.

Definition Distribution_init (r : sampling_rule) : Distribution :=
  mkDistribution r (match r with Constant v => v | Sampler _ => VNone end).

(** What a slot of [__properties__] holds: keyword arguments are wrapped in a
    [Distribution]; [Group] stores the grouped feature itself and [Load] the
    path string itself. *)
Inductive entry :=
| EDist (d : Distribution)
| EFeature (f : ident)
| EStr (s : string).

(** The [parent] attribute, when the object has one. *)
Inductive upstream :=
| PArray (a : ndarray)
| PImage (im : Image value)
| PFeature (f : ident).

Inductive class := UserFeature | Group | Load.

(** A feature object.  [get_fn] and [input_shape_fn] are the bodies of [get]
    and [__input_shape__] of a user-defined subclass; [attr_current_value] is
    the attribute [current_value] that [set_property] creates on a feature
    stored unwrapped in another feature's [__properties__]; [res_] is the
    attribute [res] of a [Load]. *)
Record Feature := mkFeature {
  cls : class;
  __name__ : string;
  get_fn : shape → Image value → dict value → Image value;
  input_shape_fn : shape → shape;
  __properties__ : dict entry;
  parent : option upstream;
  cache : option (Image value);
  probability : option value;
  attr_current_value : option value;
  res_ : option ndarray;
}.

(** The store.  [rand] is the sequence of numbers [np.random.rand()] returns
    and [drawn] how many were consumed; [source] and [pulled] are the same for
    the arrays a [Load] iterator yields; [resampled] logs, in order, every
    feature whose parameters were resampled. *)
Record state := mkState {
  heap : gmap ident Feature;
  rand : nat → Qc;
  drawn : nat;
  source : nat → ndarray;
  pulled : nat;
  resampled : list ident;
}.

Definition set_heap (h : gmap ident Feature) (s : state) : state :=
  mkState h (rand s) (drawn s) (source s) (pulled s) (resampled s).

Definition get_obj (self : ident) : M state Feature :=
  λ s, match heap s !! self with
       | Some n => Ok (n, s)
       | None => Raise DanglingReference
       end.

Definition put_obj (self : ident) (n : Feature) : M state unit :=
  modify (λ s, set_heap (<[self := n]> (heap s)) s).

(** [np.random.rand()] *)
Definition np_random_rand : M state Qc :=
  λ s, Ok (rand s (drawn s),
           mkState (heap s) (rand s) (S (drawn s)) (source s) (pulled s) (resampled s)).

(** [next(self.iter)] *)
Definition next_iter : M state ndarray :=
  λ s, Ok (source s (pulled s),
           mkState (heap s) (rand s) (drawn s) (source s) (S (pulled s)) (resampled s)).

Definition log_resample (self : ident) : M state unit :=
  modify (λ s, mkState (heap s) (rand s) (drawn s) (source s) (pulled s)
                       (resampled s ++ [self])).

(** A new object. *)
Definition alloc (n : Feature) : M state ident :=
  λ s, let self := fresh (dom (heap s)) in
       Ok (self, set_heap (<[self := n]> (heap s)) s).

Definition set_cache (c : option (Image value)) (n : Feature) : Feature :=
  mkFeature (cls n) (__name__ n) (get_fn n) (input_shape_fn n) (__properties__ n)
            (parent n) c (probability n) (attr_current_value n) (res_ n).

Definition set_parent (p : option upstream) (n : Feature) : Feature :=
  mkFeature (cls n) (__name__ n) (get_fn n) (input_shape_fn n) (__properties__ n)
            p (cache n) (probability n) (attr_current_value n) (res_ n).

Definition set_probability (p : option value) (n : Feature) : Feature :=
  mkFeature (cls n) (__name__ n) (get_fn n) (input_shape_fn n) (__properties__ n)
            (parent n) (cache n) p (attr_current_value n) (res_ n).

Definition set_properties (ps : dict entry) (n : Feature) : Feature :=
  mkFeature (cls n) (__name__ n) (get_fn n) (input_shape_fn n) ps
            (parent n) (cache n) (probability n) (attr_current_value n) (res_ n).

Definition set_attr_current_value (v : option value) (n : Feature) : Feature :=
  mkFeature (cls n) (__name__ n) (get_fn n) (input_shape_fn n) (__properties__ n)
            (parent n) (cache n) (probability n) v (res_ n).

Definition set_res (a : option ndarray) (n : Feature) : Feature :=
  mkFeature (cls n) (__name__ n) (get_fn n) (input_shape_fn n) (__properties__ n)
            (parent n) (cache n) (probability n) (attr_current_value n) a.

(** [Feature.__init__(self, **kwargs)] of a user-defined subclass. *)
Definition Feature_init (name : string)
    (get : shape → Image value → dict value → Image value)
    (input_shape : shape → shape) (kwargs : dict sampling_rule) : M state ident :=
  alloc (mkFeature UserFeature name get input_shape
           (fold_left (λ ps kv, dict_set ps kv.1 (EDist (Distribution_init kv.2))) kwargs [])
           None None None None None).

(** [Group.__init__(self, Features)] *)
Definition Group_init (Features : ident) : M state ident :=
  alloc (mkFeature Group "Group" (λ _ im _, im) (λ sh, sh)
           [("group", EFeature Features)] None None None None None).

(** [Load.__init__(self, path)] *)
Definition Load_init (path : string) : M state ident :=
  alloc (mkFeature Load "Load" (λ _ im _, im) (λ sh, sh)
           [("path", EStr path)] None None None None None).

(** [obj.current_value] for an object stored in [__properties__]: a feature
    has the attribute only once [set_property] created it, a string never. *)
Definition entry_current_value (e : entry) : M state value :=
  match e with
  | EDist d => mret (current_value d)
  | EFeature f =>
      n ← get_obj f ;
      match attr_current_value n with
      | Some v => mret v
      | None => raise AttributeError
      end
  | EStr _ => raise AttributeError
  end.

Definition get_properties (self : ident) : M state (dict value) :=
  n ← get_obj self ;
  foldM (λ props kv, v ← entry_current_value kv.2 ; mret (dict_set props kv.1 v))
        [] (__properties__ n).

Definition get_property (self : ident) (key : string) : M state value :=
  n ← get_obj self ;
  match dict_get (__properties__ n) key with
  | None => raise KeyError
  | Some e => entry_current_value e
  end.

(** [self.__properties__[key].current_value = key] *)
Definition set_property (self : ident) (key : string) (val : value) : M state unit :=
  n ← get_obj self ;
  match dict_get (__properties__ n) key with
  | None => raise KeyError
  | Some (EDist d) =>
      put_obj self (set_properties
        (dict_set (__properties__ n) key (EDist (mkDistribution (rule d) (VStr key)))) n)
  | Some (EFeature f) =>
      m ← get_obj f ;
      put_obj f (set_attr_current_value (Some (VStr key)) m)
  | Some (EStr _) => raise AttributeError
  end.

(** A method call on a sampled value.  Values are plain data (the attribute
    [current_value] of an unwrapped feature only ever holds the key string
    [set_property] stored), and plain data has none of the methods of a
    feature. *)
Definition as_feature (v : value) : res ident := Raise AttributeError.

Fixpoint getRoot (fuel : nat) (self : ident) : M state ident :=
  match fuel with
  | 0 => raise RecursionError
  | S fuel' =>
      n ← get_obj self ;
      match parent n with
      | Some (PFeature p) => getRoot fuel' p
      | Some _ => raise AttributeError
      | None => mret self
      end
  end.

(** [setParent], dispatched on the class of [self]; the argument is what is
    stored in [parent]. *)
Fixpoint setParent (fuel : nat) (self : ident) (F : upstream) : M state ident :=
  match fuel with
  | 0 => raise RecursionError
  | S fuel' =>
      n ← get_obj self ;
      match cls n with
      | UserFeature =>
          match parent n with
          | Some _ =>
              G ← Group_init self ;
              setParent fuel' G F
          | None =>
              put_obj self (set_parent (Some F) n) ;;
              mret self
          end
      | Group =>
          put_obj self (set_parent (Some F) n) ;;
          g ← get_property self "group" ;
          g ← lift (as_feature g) ;
          root ← getRoot fuel' g ;
          setParent fuel' root F ;;
          mret self
      | Load => raise Exception
      end
  end.

(** Modelled from the spec: [Distribution.__update__(history)] re-evaluates
    the sampling rule and overwrites the current value; a sampler consumes one
    uniform draw. *)
Definition Distribution_update (d : Distribution) : M state Distribution :=
  match rule d with
  | Constant v => mret (mkDistribution (rule d) v)
  | Sampler f => r ← np_random_rand ; mret (mkDistribution (rule d) (f r))
  end.

(** [d.__update__(history)] for the distribution [d] that is the [i]-th value
    of [self.__properties__]: the object is updated in place. *)
Definition update_distribution (self : ident) (i : nat) (key : string)
    (d : Distribution) : M state unit :=
  d' ← Distribution_update d ;
  n ← get_obj self ;
  put_obj self (set_properties (<[i := (key, EDist d')]> (__properties__ n)) n).

Fixpoint __update__ (fuel : nat) (self : ident) (history : list ident)
    : M state (list ident) :=
  match fuel with
  | 0 => raise RecursionError
  | S fuel' =>
      n ← get_obj self ;
      if bool_decide (self ∈ history) then mret history
      else
        match cls n with
        | Load =>
            a ← next_iter ;
            m ← get_obj self ;
            put_obj self (set_res (Some a) m) ;;
            (* super().__update__(history): self is in history by now *)
            mret (history ++ [self])
        | _ =>
            log_resample self ;;
            foldM_i (λ history i kv,
                       match kv.2 with
                       | EDist d => update_distribution self i kv.1 d ;; mret history
                       | EFeature f => __update__ fuel' f history
                       | EStr _ => raise AttributeError
                       end)
                    0 (history ++ [self]) (__properties__ n)
        end
  end.

Fixpoint __rupdate__ (fuel : nat) (self : ident) (history : list ident)
    : M state (list ident) :=
  match fuel with
  | 0 => raise RecursionError
  | S fuel' =>
      history ← __update__ fuel' self history ;
      n ← get_obj self ;
      match parent n with
      | Some (PFeature p) => __rupdate__ fuel' p history
      | Some _ => raise AttributeError
      | None => mret history
      end
  end.

Fixpoint __input_shape__ (fuel : nat) (self : ident) (sh : shape) : M state shape :=
  match fuel with
  | 0 => raise RecursionError
  | S fuel' =>
      n ← get_obj self ;
      match cls n with
      | Group =>
          g ← get_property self "group" ;
          g ← lift (as_feature g) ;
          __input_shape__ fuel' g sh
      | _ => mret (input_shape_fn n sh)
      end
  end.

(** [copy.deepcopy(x, memo)] on a feature: the copy is entered in [memo]
    before its attributes are copied; the generator a [Load] holds cannot be
    copied. *)
Fixpoint deepcopy (fuel : nat) (x : ident) (memo : gmap ident ident)
    : M state (ident * gmap ident ident) :=
  match fuel with
  | 0 => raise RecursionError
  | S fuel' =>
      match memo !! x with
      | Some y => mret (y, memo)
      | None =>
          n ← get_obj x ;
          match cls n with
          | Load => raise TypeError
          | _ =>
              y ← alloc n ;
              '(props, memo) ←
                foldM (λ '(props, memo) kv,
                         match kv.2 with
                         | EFeature f =>
                             '(f', memo) ← deepcopy fuel' f memo ;
                             mret (props ++ [(kv.1, EFeature f')], memo)
                         | e => mret (props ++ [(kv.1, e)], memo)
                         end)
                      ([], <[x := y]> memo) (__properties__ n) ;
              '(par, memo) ←
                match parent n with
                | Some (PFeature p) =>
                    '(p', memo) ← deepcopy fuel' p memo ;
                    mret (Some (PFeature p'), memo)
                | par => mret (par, memo)
                end ;
              put_obj y (set_parent par (set_properties props n)) ;;
              mret (y, memo)
          end
      end
  end.

(** How deep [copy.deepcopy] and the other recursive methods may nest before
    Python gives up. *)
Definition recursion_limit : nat := 1000.

(** [self + other], for a feature [other]. *)
Definition __add__ (self other : ident) : M state ident :=
  '(o_copy, _) ← deepcopy recursion_limit other ∅ ;
  setParent recursion_limit o_copy (PFeature self).


(** [self * other] and [other * self] *)
Definition __mul__ (self : ident) (other : value) : M state ident :=
  '(self_copy, _) ← deepcopy recursion_limit self ∅ ;
  G ← Group_init self_copy ;
  n ← get_obj G ;
  put_obj G (set_probability (Some other) n) ;;
  mret G.

(** [np.random.rand() <= p] *)
Definition draw_le (r : Qc) (p : value) : res bool :=
  match number p with
  | Some q => Ok (bool_decide (r ≤ q)%Qc)
  | None => Raise TypeError
  end.

(** What [get] returned: an image, or for [Load] the raw array [self.res]. *)
Inductive got :=
| GotImage (im : Image value)
| GotArray (a : ndarray).

(** The image [__resolve__] starts from, given how the parent resolves and
    what [self.__input_shape__(shape)] is. *)
Definition input_image (resolve_parent : ident → M state (Image value))
    (input_shape : M state shape) (n : Feature) : M state (Image value) :=
  match parent n with
  | None =>
      ish ← input_shape ;
      mret (Image_of_array (zeros ish))
  | Some (PArray a) => mret (Image_of_array a)
  | Some (PImage im) => mret im
  | Some (PFeature p) => resolve_parent p
  end.

Fixpoint __resolve__ (fuel : nat) (self : ident) (sh : shape) (kwargs : dict value)
    : M state (Image value) :=
  match fuel with
  | 0 => raise RecursionError
  | S fuel' =>
      n ← get_obj self ;
      match cache n with
      | Some c => mret c
      | None =>
          image ← input_image (λ p, __resolve__ fuel' p sh kwargs)
                              (__input_shape__ fuel' self sh) n ;
          r ← np_random_rand ;
          go ← lift (draw_le r (default (VInt 1) (probability n))) ;
          image ← (if go : bool then
                     props ← get_properties self ;
                     if keys_clash props kwargs then raise TypeError
                     else
                       out ← match cls n with
                             | UserFeature =>
                                 mret (GotImage (get_fn n sh image (props ++ kwargs)))
                             | Group =>
                                 g ← match dict_get props "group" with
                                     | Some g => lift (as_feature g)
                                     | None => raise AttributeError
                                     end ;
                                 im ← __resolve__ fuel' g sh
                                      (dict_remove props "group" ++ kwargs) ;
                                 mret (GotImage im)
                             | Load =>
                                 m ← get_obj self ;
                                 match res_ m with
                                 | Some a => mret (GotArray a)
                                 | None => raise AttributeError
                                 end
                             end ;
                       match out with
                       | GotImage im =>
                           mret (append im (dict_set props "name" (VStr (__name__ n))))
                       | GotArray _ => raise AttributeError
                       end
                   else mret image) ;
          (* self.cache = copy.deepcopy(image): an image is plain data *)
          m ← get_obj self ;
          put_obj self (set_cache (Some image) m) ;;
          mret image
      end
  end.

(** How often [self] was resampled. *)
Definition times_resampled (self : ident) (s : state) : nat :=
  length (filter (λ x, x = self) (resampled s)).

(** The parameters [Feature.__init__] wraps are distributions. *)
Definition is_dist (kv : string * entry) : Prop :=
  match kv.2 with
  | EDist _ => True
  | _ => False
  end.

(** What [get_properties] returns when all parameters are distributions. *)
Definition snapshot (n : Feature) : dict value :=
  fold_left (λ props kv,
               match kv.2 with
               | EDist d => dict_set props kv.1 (current_value d)
               | _ => props
               end) (__properties__ n) [].

(** The store after [self.cache] was set, with one more number drawn. *)
Definition drawn_and_cached (self : ident) (n : Feature) (im : Image value)
    (s : state) : state :=
  mkState (<[self := set_cache (Some im) n]> (heap s)) (rand s) (S (drawn s))
          (source s) (pulled s) (resampled s).

(** A set of features closed under [parent]: following the upstream references
    from any of them never ends, so in a finite store they run into a cycle. *)
Definition upstream_cycle (C : ident → Prop) (s : state) : Prop :=
  ∀ x, C x → ∃ n p, heap s !! x = Some n ∧ parent n = Some (PFeature p) ∧ C p.

(** A cycle whose features only have distributions as parameters. *)
Definition plain_cycle (C : ident → Prop) (h : gmap ident Feature) : Prop :=
  ∀ x, C x → ∃ n p, h !! x = Some n ∧ parent n = Some (PFeature p) ∧ C p
                    ∧ Forall is_dist (__properties__ n).

(** From one point of an update pass to a later one: the history only grows,
    and the features resampled in between are distinct, were not in the
    history and are in it afterwards. *)
Definition pass_step (x y : list ident * state) : Prop :=
  (∀ k, k ∈ (x.1) → k ∈ (y.1))
  ∧ ∃ l, resampled (y.2) = resampled (x.2) ++ l ∧ NoDup l
         ∧ ∀ k, k ∈ l → (k ∉ x.1) ∧ (k ∈ y.1).

(** Every object of the first store is, unchanged, in the second. *)
Definition kept (s s' : state) : Prop :=
  ∀ k n, heap s !! k = Some n → heap s' !! k = Some n.

(** [__clear__]: the cache of [self] is set to [None], then [__clear__] is
    called on every value of [__properties__] and on every value of
    [__dict__]; an [AttributeError] is swallowed.  The values with a
    [__clear__] that reaches a feature are the features themselves: a grouped
    feature in [__properties__] and a parent that is a feature.  (Modelled
    from the spec: a distribution and a canvas hold no feature.) *)
Fixpoint __clear__ (fuel : nat) (self : ident) : M state unit :=
  match fuel with
  | 0 => raise RecursionError
  | S fuel' =>
      n ← get_obj self ;
      put_obj self (set_cache None n) ;;
      foldM (λ _ kv,
               match kv.2 with
               | EFeature f => __clear__ fuel' f
               | _ => mret tt
               end) tt (__properties__ n) ;;
      match parent n with
      | Some (PFeature p) => __clear__ fuel' p
      | _ => mret tt
      end
  end.

(** The features a feature refers to: those stored in [__properties__] and a
    parent that is a feature. *)
Definition links (n : Feature) : list ident :=
  flat_map (λ kv, match kv.2 with EFeature f => [f] | _ => [] end) (__properties__ n)
  ++ match parent n with Some (PFeature p) => [p] | _ => [] end.

(** [reaches s x y]: following references from [x] leads to [y]. *)
Inductive reaches (s : state) : ident → ident → Prop :=
| reaches_here x : reaches s x x
| reaches_link x n c y :
    heap s !! x = Some n → c ∈ links n → reaches s c y → reaches s x y.

(** The second store is the first with some caches set to [None]. *)
Definition cleared (s s' : state) : Prop :=
  s' = set_heap (heap s') s
  ∧ (∀ k, heap s !! k = None → heap s' !! k = None)
  ∧ ∀ k n, heap s !! k = Some n →
           heap s' !! k = Some n ∨ heap s' !! k = Some (set_cache None n).

(** What an update leaves of every feature: all but its parameters and, for
    a [Load], the array it holds. *)
Definition retuned (s s' : state) : Prop :=
  ∀ k n, heap s !! k = Some n →
         ∃ n', heap s' !! k = Some n'
               ∧ cls n' = cls n ∧ __name__ n' = __name__ n
               ∧ parent n' = parent n ∧ cache n' = cache n
               ∧ probability n' = probability n
               ∧ attr_current_value n' = attr_current_value n.

(** A user-defined feature as its constructor leaves it: no parent, no cached
    result, the default probability, distributions as parameters. *)
Definition pristine (n : Feature) : Prop :=
  cls n = UserFeature ∧ parent n = None ∧ cache n = None ∧ probability n = None
  ∧ Forall is_dist (__properties__ n).

(** What [__resolve__] returns for a user-defined feature [n] that starts
    from [image] and applies [get]. *)
Definition applied (n : Feature) (sh : shape) (kwargs : dict value)
    (image : Image value) : Image value :=
  append (get_fn n sh image (snapshot n ++ kwargs))
         (dict_set (snapshot n) "name" (VStr (__name__ n))).

End Old.

(** ** The newer engine: [deeptrack/features.py] *)

Module New.

(** What a parameter holds: plain data, a feature, or a list of features. *)
Inductive pvalue :=
| PData (v : value)
| PFeature (f : ident)
| PFeatures (fs : list ident).

(** Modelled from the spec: the classes [Property] and [PropertyDict]
    ([deeptrack/properties.py]) are not part of the sources.  A parameter is a
    cell with a sampling rule and a current value that only [update]
    overwrites.  The rule is a constant, a sampler without arguments fed by one
    uniform draw ([np.random.rand]), the sampler [Duplicate.__init__] builds
    (a closure over the duplicating node and the duplicated feature, reading
    the sibling [num_duplicates]), or the generator [Load.__init__] passes.
    [update] on the root recurses to every reachable node: a constant that is
    a feature has its [update] called. *)
Inductive sampling_rule :=
| Constant (v : pvalue)
| Sampler (f : Qc → value)
| Duplicates (self feature : ident)
| Iterator.

Record Property := mkProperty {
  rule : sampling_rule;
  current_value : pvalue;
}.

Definition Property_init (r : sampling_rule) : Property :=
  mkProperty r (match r with Constant v => v | _ => PData VNone end).

Inductive class := UserFeature | Branch | Probability | Duplicate | Wrap | Load.

(** A feature object.  [get_fn] and [_process_properties] are the bodies of
    [get] and of the hook [_process_properties] of a user-defined subclass;
    [__name__] is [type(self).__name__]; [feature] is the attribute
    [Duplicate.__init__] sets. *)
Record Feature := mkFeature {
  cls : class;
  __name__ : string;
  __property_verbosity__ : Z;
  get_fn : Image pvalue → dict pvalue → Image pvalue;
  _process_properties : dict pvalue → dict pvalue;
  properties : dict Property;
  has_updated_since_last_resolve : bool;
  feature : option ident;
}.

(** The store, as in the older engine. *)
Record state := mkState {
  heap : gmap ident Feature;
  rand : nat → Qc;
  drawn : nat;
  source : nat → ndarray;
  pulled : nat;
  resampled : list ident;
}.

Definition set_heap (h : gmap ident Feature) (s : state) : state :=
  mkState h (rand s) (drawn s) (source s) (pulled s) (resampled s).

Definition get_obj (self : ident) : M state Feature :=
  λ s, match heap s !! self with
       | Some n => Ok (n, s)
       | None => Raise DanglingReference
       end.

Definition put_obj (self : ident) (n : Feature) : M state unit :=
  modify (λ s, set_heap (<[self := n]> (heap s)) s).

(** [np.random.rand()] *)
Definition np_random_rand : M state Qc :=
  λ s, Ok (rand s (drawn s),
           mkState (heap s) (rand s) (S (drawn s)) (source s) (pulled s) (resampled s)).

(** [next(generator)] *)
Definition next_iter : M state ndarray :=
  λ s, Ok (source s (pulled s),
           mkState (heap s) (rand s) (drawn s) (source s) (S (pulled s)) (resampled s)).

Definition log_resample (self : ident) : M state unit :=
  modify (λ s, mkState (heap s) (rand s) (drawn s) (source s) (pulled s)
                       (resampled s ++ [self])).

(** A new object. *)
Definition alloc (n : Feature) : M state ident :=
  λ s, let self := fresh (dom (heap s)) in
       Ok (self, set_heap (<[self := n]> (heap s)) s).

Definition set_properties (ps : dict Property) (n : Feature) : Feature :=
  mkFeature (cls n) (__name__ n) (__property_verbosity__ n) (get_fn n)
            (_process_properties n) ps (has_updated_since_last_resolve n) (feature n).

Definition set_flag (b : bool) (n : Feature) : Feature :=
  mkFeature (cls n) (__name__ n) (__property_verbosity__ n) (get_fn n)
            (_process_properties n) (properties n) b (feature n).

Definition set_feature (f : option ident) (n : Feature) : Feature :=
  mkFeature (cls n) (__name__ n) (__property_verbosity__ n) (get_fn n)
            (_process_properties n) (properties n) (has_updated_since_last_resolve n) f.

(** The [PropertyDict] that [Feature.__init__] builds from its keyword
    arguments. *)
Definition wrap_kwargs (kwargs : dict sampling_rule) : dict Property :=
  fold_left (λ ps kv, dict_set ps kv.1 (Property_init kv.2)) kwargs [].

(** [self.properties.current_value_dict()] *)
Definition current_value_dict (n : Feature) : dict pvalue :=
  map (λ kv, (kv.1, current_value kv.2)) (properties n).

(** [Feature.__init__(self, **kwargs)] of a user-defined subclass. *)
Definition Feature_init (name : string) (verbosity : Z)
    (get : Image pvalue → dict pvalue → Image pvalue)
    (process : dict pvalue → dict pvalue) (kwargs : dict sampling_rule) : M state ident :=
  alloc (mkFeature UserFeature name verbosity get process (wrap_kwargs kwargs) false None).

Definition Branch_init (F1 F2 : ident) (kwargs : dict sampling_rule) : M state ident :=
  alloc (mkFeature Branch "Branch" 2 (λ im _, im) (λ d, d)
           (wrap_kwargs ([("feature_1", Constant (PFeature F1));
                          ("feature_2", Constant (PFeature F2))] ++ kwargs))
           false None).

Definition Probability_init (feature : ident) (probability : sampling_rule)
    (kwargs : dict sampling_rule) : M state ident :=
  alloc (mkFeature Probability "Probability" 2 (λ im _, im) (λ d, d)
           (wrap_kwargs ([("feature", Constant (PFeature feature));
                          ("probability", probability);
                          ("random_number", Sampler VFloat)] ++ kwargs))
           false None).


Definition Wrap_init (feature_1 feature_2 : ident) : M state ident :=
  alloc (mkFeature Wrap "Wrap" 2 (λ im _, im) (λ d, d)
           (wrap_kwargs [("feature_1", Constant (PFeature feature_1));
                         ("feature_2", Constant (PFeature feature_2))])
           false None).

Definition Load_init : M state ident :=
  alloc (mkFeature Load "Load" 1 (λ im _, im) (λ d, d)
           (wrap_kwargs [("loaded_image", Iterator)]) false None).

(** The features a value holds. *)
Definition features_of (v : pvalue) : list ident :=
  match v with
  | PData _ => []
  | PFeature f => [f]
  | PFeatures fs => fs
  end.

(** [copy.deepcopy] of a value, given the copy of a feature. *)
Definition copy_pvalue (copy : ident → gmap ident ident → M state (ident * gmap ident ident))
    (v : pvalue) (memo : gmap ident ident) : M state (pvalue * gmap ident ident) :=
  match v with
  | PData d => mret (PData d, memo)
  | PFeature f => '(f', memo) ← copy f memo ; mret (PFeature f', memo)
  | PFeatures fs =>
      '(fs', memo) ← foldM (λ '(acc, memo) f,
                              '(f', memo) ← copy f memo ; mret (acc ++ [f'], memo))
                           ([], memo) fs ;
      mret (PFeatures fs', memo)
  end.

(** [copy.deepcopy(x, memo)] on a feature: the empty copy is entered in [memo]
    before the attributes are copied.  A function is copied as itself, with
    the objects its closure holds; a generator cannot be copied. *)
Fixpoint deepcopy (fuel : nat) (x : ident) (memo : gmap ident ident)
    : M state (ident * gmap ident ident) :=
  match fuel with
  | 0 => raise RecursionError
  | S fuel' =>
      match memo !! x with
      | Some y => mret (y, memo)
      | None =>
          n ← get_obj x ;
          y ← alloc (set_feature None (set_properties [] n)) ;
          '(feat, memo) ←
            match feature n with
            | Some f =>
                '(f', memo) ← deepcopy fuel' f (<[x := y]> memo) ;
                mret (Some f', memo)
            | None => mret (None, <[x := y]> memo)
            end ;
          '(props, memo) ←
            foldM (λ '(props, memo) kv,
                     '(r, memo) ←
                       match rule kv.2 with
                       | Constant v =>
                           '(v', memo) ← copy_pvalue (deepcopy fuel') v memo ;
                           mret (Constant v', memo)
                       | Iterator => raise TypeError
                       | r => mret (r, memo)
                       end ;
                     '(v, memo) ← copy_pvalue (deepcopy fuel') (current_value kv.2) memo ;
                     mret (props ++ [(kv.1, mkProperty r v)], memo))
                  ([], memo) (properties n) ;
          put_obj y (set_feature feat (set_properties props n)) ;;
          mret (y, memo)
      end
  end.

(** [prop.update()] for the rule of a parameter, given [Feature.update] and
    [copy.deepcopy]: the value the parameter takes. *)
Definition Property_sample (update : ident → M state ident)
    (deepcopy : ident → gmap ident ident → M state (ident * gmap ident ident))
    (r : sampling_rule) : M state pvalue :=
  match r with
  | Constant v =>
      foldM (λ _ f, update f ;; mret tt) tt (features_of v) ;;
      mret v
  | Sampler g => x ← np_random_rand ; mret (PData (g x))
  | Duplicates self feature =>
      (* [copy.deepcopy(feature).update() for _ in
          range(self.properties["num_duplicates"].current_value)] *)
      n ← get_obj self ;
      match dict_get (properties n) "num_duplicates" with
      | Some p =>
          match current_value p with
          | PData (VInt z) =>
              fs ← mapM (λ _, '(c, _) ← deepcopy feature ∅ ; update c)
                        (seq 0 (Z.to_nat z)) ;
              mret (PFeatures fs)
          | _ => raise TypeError
          end
      | None => raise KeyError
      end
  | Iterator => a ← next_iter ; mret (PData (VArray a))
  end.

(** [self.properties.update()]: every parameter, in declaration order, is
    updated in place. *)
Definition PropertyDict_update (update : ident → M state ident)
    (deepcopy : ident → gmap ident ident → M state (ident * gmap ident ident))
    (self : ident) : M state unit :=
  n ← get_obj self ;
  log_resample self ;;
  foldM_i (λ _ i kv,
             v ← Property_sample update deepcopy (rule kv.2) ;
             m ← get_obj self ;
             put_obj self (set_properties
               (alter (λ kp, (kp.1, mkProperty (rule kp.2) v)) i (properties m)) m))
          0 tt (properties n).

Fixpoint update (fuel : nat) (self : ident) : M state ident :=
  match fuel with
  | 0 => raise RecursionError
  | S fuel' =>
      n ← get_obj self ;
      (if has_updated_since_last_resolve n then mret tt
       else PropertyDict_update (update fuel') (deepcopy fuel') self) ;;
      m ← get_obj self ;
      put_obj self (set_flag true m) ;;
      mret self
  end.

Definition sample (fuel : nat) (self : ident) : M state ident :=
  PropertyDict_update (update fuel) (deepcopy fuel) self ;;
  mret self.

(** [v.resolve], for the value bound to a keyword parameter of [get]. *)
Definition as_feature (v : option pvalue) : res ident :=
  match v with
  | Some (PFeature f) => Ok f
  | _ => Raise AttributeError
  end.

(** [a < b] *)
Definition lt_values (a b : option pvalue) : res bool :=
  match a, b with
  | Some (PData (VStr x)), Some (PData (VStr y)) => Ok (String.ltb x y)
  | Some (PData x), Some (PData y) =>
      match number x, number y with
      | Some p, Some q => Ok (bool_decide (p < q)%Qc)
      | _, _ => Raise TypeError
      end
  | _, _ => Raise TypeError
  end.

(** [n <= v] for the integer [n] *)
Definition verbosity_le (n : Z) (v : pvalue) : res bool :=
  match v with
  | PData d =>
      match number d with
      | Some q => Ok (bool_decide (Q2Qc (inject_Z n) ≤ q)%Qc)
      | None => Raise TypeError
      end
  | _ => Raise TypeError
  end.

Definition dict_remove_all {A} (d : dict A) (keys : list string) : dict A :=
  fold_left dict_remove keys d.

Fixpoint resolve (fuel : nat) (self : ident) (image : Image pvalue)
    (global_kwargs : dict pvalue) : M state (Image pvalue) :=
  match fuel with
  | 0 => raise RecursionError
  | S fuel' =>
      n ← get_obj self ;
      let feature_input :=
        _process_properties n (dict_update (current_value_dict n) global_kwargs) in
      image ←
        match cls n with
        | UserFeature => mret (get_fn n image feature_input)
        | Branch =>
            let kwargs := dict_remove_all feature_input ["feature_1"; "feature_2"] in
            feature_1 ← lift (as_feature (dict_get feature_input "feature_1")) ;
            image ← resolve fuel' feature_1 image kwargs ;
            feature_2 ← lift (as_feature (dict_get feature_input "feature_2")) ;
            resolve fuel' feature_2 image kwargs
        | Probability =>
            let kwargs := dict_remove_all feature_input
                            ["feature"; "probability"; "random_number"] in
            go ← lift (lt_values (dict_get feature_input "random_number")
                                 (dict_get feature_input "probability")) ;
            if go : bool then
              feature ← lift (as_feature (dict_get feature_input "feature")) ;
              resolve fuel' feature image kwargs
            else mret image
        | Duplicate =>
            let kwargs := dict_remove_all feature_input ["features"] in
            match dict_get feature_input "features" with
            | Some (PFeatures fs) =>
                foldM (λ image feature, resolve fuel' feature image kwargs) image fs
            | _ => raise TypeError
            end
        | Wrap =>
            let kwargs := dict_remove_all feature_input ["feature_1"; "feature_2"] in
            feature_1 ← lift (as_feature (dict_get feature_input "feature_1")) ;
            feature_2 ← lift (as_feature (dict_get feature_input "feature_2")) ;
            m ← get_obj feature_2 ;
            if keys_clash (current_value_dict m) kwargs then raise TypeError
            else
              image ← resolve fuel' feature_1 image (current_value_dict m ++ kwargs) ;
              resolve fuel' feature_2 image kwargs
        | Load =>
            match dict_get feature_input "loaded_image" with
            | Some (PData (VArray a)) =>
                mret (mkImage (array_add (payload image) a) (provenance image))
            | _ => raise TypeError
            end
        end ;
      go ← lift (verbosity_le (__property_verbosity__ n)
                   (default (PData (VInt 1))
                            (dict_get global_kwargs "property_verbosity"))) ;
      let image :=
        if go : bool
        then append image (dict_set feature_input "name" (PData (VStr (__name__ n))))
        else image in
      m ← get_obj self ;
      put_obj self (set_flag false m) ;;
      mret image
  end.

(** [self + other] *)
Definition __add__ (self other : ident) : M state ident := Branch_init self other [].

(** [self * other] and [other * self] *)
Definition __mul__ (self : ident) (other : sampling_rule) : M state ident :=
  Probability_init self other [].


(** [self(other)] *)
Definition __call__ (self other : ident) : M state ident := Wrap_init other self.

(** How often [self] was resampled. *)
Definition times_resampled (self : ident) (s : state) : nat :=
  length (filter (λ x, x = self) (resampled s)).

(** The arguments [resolve] passes to [get]. *)
Definition feature_input (n : Feature) (global_kwargs : dict pvalue) : dict pvalue :=
  _process_properties n (dict_update (current_value_dict n) global_kwargs).

(** What [resolve] returns once [get] returned [image]. *)
Definition recorded (n : Feature) (global_kwargs : dict pvalue) (go : bool)
    (image : Image pvalue) : Image pvalue :=
  if go
  then append image (dict_set (feature_input n global_kwargs) "name"
                              (PData (VStr (__name__ n))))
  else image.

(** The test [random_number < probability] that [Probability.get] makes for
    the gate [self] when it is resolved with [global_kwargs]. *)
Definition gate_decision (self : ident) (global_kwargs : dict pvalue) (s : state)
    : res bool :=
  match heap s !! self with
  | Some n =>
      lt_values (dict_get (feature_input n global_kwargs) "random_number")
                (dict_get (feature_input n global_kwargs) "probability")
  | None => Raise DanglingReference
  end.

(** The store with every update flag cleared. *)
Definition unflagged (s : state) : state :=
  set_heap (set_flag false <$> heap s) s.

(** Every object of the first store is, unchanged, in the second. *)
Definition kept (s s' : state) : Prop :=
  ∀ k n, heap s !! k = Some n → heap s' !! k = Some n.


(** Two outcomes that agree up to the update flags of the stores. *)
Definition sim {A} (r1 r2 : res (A * state)) : Prop :=
  match r1, r2 with
  | Ok (a1, t1), Ok (a2, t2) => a1 = a2 ∧ unflagged t1 = unflagged t2
  | Raise e1, Raise e2 => e1 = e2
  | _, _ => False
  end.

(** The features the update of a parameter goes on to: those a constant
    holds, whose [update] is called, and the one a [Duplicates] sampler
    copies. *)
Definition rule_children (r : sampling_rule) : list ident :=
  match r with
  | Constant v => features_of v
  | Duplicates _ feature => [feature]
  | _ => []
  end.

Definition rules_of (n : Feature) : list sampling_rule :=
  map (λ kv, rule kv.2) (properties n).

Definition children (n : Feature) : list ident :=
  flat_map rule_children (rules_of n).

(** The graph is a DAG: no reference dangles, and a rank decreases from every
    feature to the features below it. *)
Definition dag (rank : ident → nat) (s : state) : Prop :=
  ∀ x n c, heap s !! x = Some n → c ∈ children n →
           is_Some (heap s !! c) ∧ rank c < rank x.

(** Two ranks agree on the objects of a store. *)
Definition agree (rank rank' : ident → nat) (s : state) : Prop :=
  ∀ k, is_Some (heap s !! k) → rank' k = rank k.

Definition flagged (s : state) (k : ident) : Prop :=
  ∃ n, heap s !! k = Some n ∧ has_updated_since_last_resolve n = true.

(** Every object stays, with its sampling rules, and a flag that is set stays
    set. *)
Definition grows (s s' : state) : Prop :=
  ∀ k n, heap s !! k = Some n →
         ∃ n', heap s' !! k = Some n' ∧ rules_of n' = rules_of n
               ∧ (has_updated_since_last_resolve n = true →
                  has_updated_since_last_resolve n' = true).

(** From one point of an update pass to a later one, below the feature [x]:
    the features resampled in between are distinct, had no flag and have it
    afterwards, and those that existed before rank below [x] (strictly, or
    not). *)
Definition pass_step (x : ident) (strict : bool) (s s' : state) : Prop :=
  grows s s'
  ∧ ∃ l, resampled s' = resampled s ++ l ∧ NoDup l
         ∧ (∀ k, k ∈ l → ¬ flagged s k ∧ flagged s' k)
         ∧ ∀ rank, dag rank s → is_Some (heap s !! x) →
                   ∃ rank', dag rank' s' ∧ agree rank rank' s
                            ∧ ∀ k, k ∈ l → is_Some (heap s !! k) →
                                   if strict then rank k < rank x else rank k ≤ rank x.

(** The store is a DAG in which [x] has the sampling rules of [n]. *)
Definition good (n : Feature) (x : ident) (s : state) : Prop :=
  (∃ rank, dag rank s) ∧ ∃ m, heap s !! x = Some m ∧ rules_of m = rules_of n.

(** The copies recorded in [memo] rank as their originals. *)
Definition memo_ok (rank : ident → nat) (s : state) (memo : gmap ident ident) : Prop :=
  ∀ a b, memo !! a = Some b →
         is_Some (heap s !! a) ∧ is_Some (heap s !! b) ∧ rank b = rank a.

(** From one point of a deep copy to a later one. *)
Definition copy_step (x y : gmap ident ident * state) : Prop :=
  kept (x.2) (y.2) ∧ resampled (y.2) = resampled (x.2) ∧ x.1 ⊆ y.1
  ∧ ∀ rank, dag rank (x.2) → memo_ok rank (x.2) (x.1) →
            ∃ rank', dag rank' (y.2) ∧ agree rank rank' (x.2) ∧ memo_ok rank' (y.2) (y.1).

(** The copy of a sampling rule: the features of a constant are replaced by
    their copies, anything else is the same rule. *)
Definition copied_rule (memo : gmap ident ident) (r r' : sampling_rule) : Prop :=
  match r with
  | Constant v =>
      ∃ v', r' = Constant v'
            ∧ Forall2 (λ f f', memo !! f = Some f') (features_of v) (features_of v')
  | Iterator => False
  | _ => r' = r
  end.

End New.

(** ** Concrete graphs *)

Module Examples.

(** A transformation that adds one to every pixel. *)
Definition add_one (a : ndarray) : ndarray := map (map (Z.add 1)) a.

Definition old_add_one : shape → Image value → dict value → Image value :=
  λ _ im _, mkImage (add_one (payload im)) (provenance im).

Definition new_add_one : Image New.pvalue → dict New.pvalue → Image New.pvalue :=
  λ im _, mkImage (add_one (payload im)) (provenance im).

(** An empty store of the older engine whose random numbers are all [r]. *)
Definition old_store (r : Qc) : Old.state := Old.mkState ∅ (λ _, r) 0 (λ _, []) 0 [].

(** An empty store of the newer engine whose random numbers are all [r]. *)
Definition new_store (r : Qc) : New.state := New.mkState ∅ (λ _, r) 0 (λ _, []) 0 [].

(** A user-defined feature of the older engine, with one constant parameter. *)
Definition old_feature (prob : option value) (par : option Old.upstream)
    (c : option (Image value)) : Old.Feature :=
  Old.mkFeature Old.UserFeature "AddOne" old_add_one (λ sh, sh)
    [("k", Old.EDist (Old.mkDistribution (Old.Constant (VInt 3)) (VInt 3)))]
    par c prob None None.

Definition old_with (r : Qc) (objs : list (ident * Old.Feature)) : Old.state :=
  Old.set_heap (list_to_map objs) (old_store r).

(** A user-defined feature of the newer engine, with one constant parameter. *)
Definition new_feature : New.Feature :=
  New.mkFeature New.UserFeature "AddOne" 1 new_add_one (λ d, d)
    [("k", New.mkProperty (New.Constant (New.PData (VInt 3))) (New.PData (VInt 3)))]
    false None.

Definition new_with (r : Qc) (objs : list (ident * New.Feature)) : New.state :=
  New.set_heap (list_to_map objs) (new_store r).

Definition half : Qc := Q2Qc (1 # 2).

(** A one-pixel canvas that is not zero. *)
Definition seven : Image value := Image_of_array [[7%Z]].

(** One source feature: no upstream, nothing cached, the default probability. *)
Definition old_source : Old.state := old_with 0 [(0, old_feature None None None)].

(** A source feature with [probability = 0], when [np.random.rand()] returns 0. *)
Definition old_never : Old.state :=
  old_with 0 [(0, old_feature (Some (VInt 0)) None None)].

(** The same feature when [np.random.rand()] returns 1/2. *)
Definition old_skipping : Old.state :=
  old_with half [(0, old_feature (Some (VInt 0)) None None)].

(** A source feature that holds a cached result. *)
Definition old_cached : Old.state := old_with 0 [(0, old_feature None None (Some seven))].

(** A feature that is its own parent. *)
Definition old_loop : Old.state :=
  old_with 0 [(0, old_feature None (Some (Old.PFeature 0)) None)].

(** [Load("data")] in an empty store. *)
Definition old_loaded : Old.state :=
  old_with 0 [(0, Old.mkFeature Old.Load "Load" (λ _ im _, im) (λ sh, sh)
                    [("path", Old.EStr "data")] None None None None None)].

(** A group [1] around the feature [0] that is also its parent: [0] is reached
    through the parameters of [1] and through its parent. *)
Definition old_shared : Old.state :=
  old_with 0 [(0, old_feature None None None);
              (1, Old.mkFeature Old.Group "Group" (λ _ im _, im) (λ sh, sh)
                    [("group", Old.EFeature 0)] (Some (Old.PFeature 0))
                    None None None None)].

(** Two unrelated source features. *)
Definition old_pair : Old.state :=
  old_with 0 [(0, old_feature None None None); (1, old_feature None None None)].

(** One feature of the newer engine. *)
Definition new_single : New.state := new_with 0 [(0, new_feature)].

(** [F + F]: the branch [1] reaches the feature [0] by both of its
    parameters. *)
Definition new_shared : New.state :=
  new_with 0 [(0, new_feature);
              (1, New.mkFeature New.Branch "Branch" 2 (λ im _, im) (λ d, d)
                    [("feature_1", New.mkProperty (New.Constant (New.PFeature 0))
                                                  (New.PFeature 0));
                     ("feature_2", New.mkProperty (New.Constant (New.PFeature 0))
                                                  (New.PFeature 0))]
                    false None)].

(** The gate [F * p], updated when [np.random.rand()] returned 1/2. *)
Definition new_gate (p : value) : New.state :=
  new_with half [(0, new_feature);
                 (1, New.mkFeature New.Probability "Probability" 2 (λ im _, im) (λ d, d)
                       [("feature", New.mkProperty (New.Constant (New.PFeature 0))
                                                   (New.PFeature 0));
                        ("probability", New.mkProperty (New.Constant (New.PData p))
                                                       (New.PData p));
                        ("random_number", New.mkProperty (New.Sampler VFloat)
                                                         (New.PData (VFloat half)))]
                       true None)].

(** A one-pixel zero canvas of the newer engine. *)
Definition blank : Image New.pvalue := Image_of_array (zeros (1, 1)).

(** A feature whose parent is an array. *)
Definition old_on_array : Old.state :=
  old_with 0 [(0, old_feature None (Some (Old.PArray [[5%Z]])) None)].

End Examples.

(** ** Facts about the monad and about dictionaries *)

Section monad_facts.
Context {Σ : Type}.

Lemma bind_Ok {A B} (m : M Σ A) (k : A → M Σ B) σ b σ' :
  (m ≫= k) σ = Ok (b, σ') ↔ ∃ a σ1, m σ = Ok (a, σ1) ∧ k a σ1 = Ok (b, σ').
Proof.
  unfold mbind, M_bind. split.
  - destruct (m σ) as [[a σ1]|e]; [eauto|discriminate].
  - intros (a & σ1 & -> & H). exact H.
Qed.

Lemma bind_step {A B} (m : M Σ A) (k : A → M Σ B) σ a σ1 :
  m σ = Ok (a, σ1) → (m ≫= k) σ = k a σ1.
Proof. unfold mbind, M_bind. by intros ->. Qed.

Lemma bind_Raise {A B} (m : M Σ A) (k : A → M Σ B) σ e :
  m σ = Raise e → (m ≫= k) σ = Raise e.
Proof. unfold mbind, M_bind. by intros ->. Qed.


Lemma mret_Ok {A} (a b : A) (σ σ' : Σ) :
  mret (M := M Σ) a σ = Ok (b, σ') ↔ a = b ∧ σ = σ'.
Proof. unfold mret, M_ret. split; [by inversion 1|by intros [-> ->]]. Qed.

(** A loop keeps what every round keeps. *)
Lemma foldM_i_inv {A B} (R : B * Σ → B * Σ → Prop) (body : B → nat → A → M Σ B) l :
  (∀ x, R x x) →
  (∀ x y z, R x y → R y z → R x z) →
  (∀ acc i a σ acc' σ', a ∈ l → body acc i a σ = Ok (acc', σ') → R (acc, σ) (acc', σ')) →
  ∀ i acc σ acc' σ',
    foldM_i body i acc l σ = Ok (acc', σ') → R (acc, σ) (acc', σ').
Proof.
  intros Hrefl Htrans. induction l as [|a l IH]; intros Hbody i acc σ acc' σ' H.
  - apply mret_Ok in H as [-> ->]. apply Hrefl.
  - simpl in H. apply bind_Ok in H as (acc1 & σ1 & H1 & H2).
    eapply Htrans.
    + eapply Hbody; [left|exact H1].
    + eapply IH; [|exact H2]. intros. eapply Hbody; [by right|done].
Qed.

Lemma foldM_inv {A B} (R : B * Σ → B * Σ → Prop) (body : B → A → M Σ B) l :
  (∀ x, R x x) →
  (∀ x y z, R x y → R y z → R x z) →
  (∀ acc a σ acc' σ', a ∈ l → body acc a σ = Ok (acc', σ') → R (acc, σ) (acc', σ')) →
  ∀ acc σ acc' σ',
    foldM body acc l σ = Ok (acc', σ') → R (acc, σ) (acc', σ').
Proof.
  intros Hrefl Htrans. induction l as [|a l IH]; intros Hbody acc σ acc' σ' H.
  - apply mret_Ok in H as [-> ->]. apply Hrefl.
  - simpl in H. apply bind_Ok in H as (acc1 & σ1 & H1 & H2).
    eapply Htrans.
    + eapply Hbody; [left|exact H1].
    + eapply IH; [|exact H2]. intros. eapply Hbody; [by right|done].
Qed.

Lemma mapM_inv {A B} (R : Σ → Σ → Prop) (f : A → M Σ B) l :
  (∀ x, R x x) →
  (∀ x y z, R x y → R y z → R x z) →
  (∀ a σ b σ', a ∈ l → f a σ = Ok (b, σ') → R σ σ') →
  ∀ σ bs σ', mapM f l σ = Ok (bs, σ') → R σ σ'.
Proof.
  intros Hrefl Htrans. induction l as [|a l IH]; intros Hf σ bs σ' H.
  - apply mret_Ok in H as [_ ->]. apply Hrefl.
  - simpl in H. apply bind_Ok in H as (b & σ1 & H1 & H).
    apply bind_Ok in H as (bs' & σ2 & H2 & H).
    apply mret_Ok in H as [_ ->].
    eapply Htrans.
    + eapply Hf; [left|exact H1].
    + eapply IH; [|exact H2]. intros. eapply Hf; [by right|done].
Qed.
End monad_facts.

(** Splits a hypothesis [(x ← m; k) σ = Ok _] into its steps. *)
Tactic Notation "inv_bind" hyp(H) "as" ident(H1) :=
  let a := fresh "a" in
  let σ := fresh "σ" in
  apply bind_Ok in H as (a & σ & H1 & H).
Tactic Notation "inv_bind" hyp(H) "as" ident(H1) ident(a) ident(σ) :=
  apply bind_Ok in H as (a & σ & H1 & H).

Lemma dict_get_set_eq {A} (d : dict A) key v : dict_get (dict_set d key v) key = Some v.
Proof.
  induction d as [|[k w] d IH]; simpl.
  - by rewrite bool_decide_eq_true_2.
  - case_bool_decide as Hk; simpl.
    + by rewrite bool_decide_eq_true_2.
    + by rewrite bool_decide_eq_false_2.
Qed.

Lemma dict_get_set_ne {A} (d : dict A) key key' v :
  key ≠ key' → dict_get (dict_set d key v) key' = dict_get d key'.
Proof.
  intros Hne. induction d as [|[k w] d IH]; simpl.
  - by rewrite bool_decide_eq_false_2.
  - case_bool_decide as Hk; simpl.
    + subst k. by rewrite !bool_decide_eq_false_2.
    + by rewrite IH.
Qed.

Lemma filter_eq_not_in (j : ident) (l : list ident) :
  j ∉ l → filter (λ x, x = j) l = [].
Proof.
  induction l as [|x l IH]; intros Hj; [done|].
  rewrite filter_cons. case_decide as Hx.
  - subst x. exfalso. apply Hj. by left.
  - apply IH. intros ?. apply Hj. by right.
Qed.

Lemma count_NoDup (j : ident) (l : list ident) :
  NoDup l → length (filter (λ x, x = j) l) ≤ 1.
Proof.
  induction 1 as [|x l Hx Hnd IH]; [simpl; lia|].
  rewrite filter_cons. case_decide as Hj; [|done]. subst x.
  rewrite filter_eq_not_in by done. simpl. lia.
Qed.

(** ** The older engine: facts *)

Module OldFacts.
Import Old.

Lemma old_get_obj_Ok self s n s' : get_obj self s = Ok (n, s') ↔ heap s !! self = Some n ∧ s' = s.
Proof.
  unfold get_obj. destruct (heap s !! self); split.
  - by inversion 1.
  - intros [[= ->] ->]. done.
  - discriminate.
  - intros [[=] _].
Qed.

Lemma old_get_obj_lookup self s n : heap s !! self = Some n → get_obj self s = Ok (n, s).
Proof. intros. by apply old_get_obj_Ok. Qed.

Lemma heap_put self n s : heap (set_heap (<[self := n]> (heap s)) s) !! self = Some n.
Proof. simpl. apply lookup_insert_eq. Qed.

(** *** [set_property] stores the key *)

Lemma set_property_get_property s self key val n e :
  heap s !! self = Some n →
  dict_get (__properties__ n) key = Some e →
  match e with
  | EDist _ => True
  | EFeature f => is_Some (heap s !! f)
  | EStr _ => False
  end →
  ∃ s', set_property self key val s = Ok (tt, s')
        ∧ get_property self key s' = Ok (VStr key, s').
Proof.
  intros Hn He Hobj. unfold set_property.
  rewrite (bind_step _ _ _ _ _ (old_get_obj_lookup _ _ _ Hn)). rewrite He.
  destruct e as [d|f|p]; [| |done].
  - eexists. split; [reflexivity|].
    unfold get_property.
    erewrite bind_step; [|apply old_get_obj_lookup, heap_put].
    simpl. by rewrite dict_get_set_eq.
  - destruct Hobj as [m Hm].
    rewrite (bind_step _ _ _ _ _ (old_get_obj_lookup _ _ _ Hm)).
    eexists. split; [reflexivity|].
    unfold get_property.
    destruct (decide (f = self)) as [->|Hne].
    + assert (m = n) as -> by congruence.
      erewrite bind_step; [|apply old_get_obj_lookup, heap_put].
      simpl. rewrite He. simpl.
      erewrite bind_step; [|apply old_get_obj_lookup, heap_put]. done.
    + erewrite bind_step; [|apply old_get_obj_lookup; simpl; rewrite lookup_insert_ne; eauto].
      rewrite He. simpl.
      erewrite bind_step; [|apply old_get_obj_lookup, heap_put]. done.
Qed.

(** *** A second [__resolve__] returns the cache the first one stored *)

Lemma resolve_stores_cache fuel self sh kwargs s r s' :
  __resolve__ fuel self sh kwargs s = Ok (r, s') →
  ∃ n, heap s' !! self = Some n ∧ cache n = Some r.
Proof.
  destruct fuel as [|fuel]; [discriminate|]. simpl. intros H.
  inv_bind H as Hn. apply old_get_obj_Ok in Hn as [Hn ->].
  destruct (cache a) as [c|] eqn:Hc.
  - apply mret_Ok in H as [-> ->]. eauto.
  - inv_bind H as Himg. inv_bind H as Hr. inv_bind H as Hgo. inv_bind H as Hout.
    inv_bind H as Hm. apply old_get_obj_Ok in Hm as [Hm ->].
    inv_bind H as Hput. apply mret_Ok in H as [-> ->].
    inversion Hput; subst. eexists. split; [apply heap_put|done].
Qed.

Lemma resolve_cached fuel self sh kwargs s n c :
  heap s !! self = Some n → cache n = Some c →
  __resolve__ (S fuel) self sh kwargs s = Ok (c, s).
Proof.
  intros Hn Hc. simpl.
  rewrite (bind_step _ _ _ _ _ (old_get_obj_lookup _ _ _ Hn)). by rewrite Hc.
Qed.


(** *** The gate *)

(** What [__resolve__] does once it has its input image. *)
Lemma resolve_from_input fuel self sh kwargs s n image s1 :
  heap s !! self = Some n → cache n = None →
  input_image (λ p, __resolve__ fuel p sh kwargs) (__input_shape__ fuel self sh) n s
    = Ok (image, s1) →
  __resolve__ (S fuel) self sh kwargs s =
    (r ← np_random_rand ;
     go ← lift (draw_le r (default (VInt 1) (probability n))) ;
     image ← (if go : bool then
                props ← get_properties self ;
                if keys_clash props kwargs then raise TypeError
                else
                  out ← match cls n with
                        | UserFeature =>
                            mret (GotImage (get_fn n sh image (props ++ kwargs)))
                        | Group =>
                            g ← match dict_get props "group" with
                                | Some g => lift (as_feature g)
                                | None => raise AttributeError
                                end ;
                            im ← __resolve__ fuel g sh
                                 (dict_remove props "group" ++ kwargs) ;
                            mret (GotImage im)
                        | Load =>
                            m ← get_obj self ;
                            match res_ m with
                            | Some a => mret (GotArray a)
                            | None => raise AttributeError
                            end
                        end ;
                  match out with
                  | GotImage im =>
                      mret (append im (dict_set props "name" (VStr (__name__ n))))
                  | GotArray _ => raise AttributeError
                  end
              else mret image) ;
     m ← get_obj self ;
     put_obj self (set_cache (Some image) m) ;;
     mret image) s1.
Proof.
  intros Hn Hc Him. simpl.
  rewrite (bind_step _ _ _ _ _ (old_get_obj_lookup _ _ _ Hn)). rewrite Hc.
  by rewrite (bind_step _ _ _ _ _ Him).
Qed.

(** When the draw exceeds the probability, the input image is the result, with
    no record added. *)
Lemma resolve_skip fuel self sh kwargs s n image s1 m :
  heap s !! self = Some n → cache n = None →
  input_image (λ p, __resolve__ fuel p sh kwargs) (__input_shape__ fuel self sh) n s
    = Ok (image, s1) →
  heap s1 !! self = Some m →
  draw_le (rand s1 (drawn s1)) (default (VInt 1) (probability n)) = Ok false →
  __resolve__ (S fuel) self sh kwargs s = Ok (image, drawn_and_cached self m image s1).
Proof.
  intros Hn Hc Him Hm Hskip.
  rewrite (resolve_from_input _ _ _ _ _ _ _ _ Hn Hc Him).
  unfold np_random_rand, lift, mbind, M_bind at 1 2. simpl. rewrite Hskip.
  unfold mbind, M_bind, mret, M_ret, get_obj. simpl. rewrite Hm. done.
Qed.

Lemma get_properties_dists self s n :
  heap s !! self = Some n → Forall is_dist (__properties__ n) →
  get_properties self s = Ok (snapshot n, s).
Proof.
  intros Hn Hd. unfold get_properties, snapshot.
  rewrite (bind_step _ _ _ _ _ (old_get_obj_lookup _ _ _ Hn)).
  generalize (@nil (string * value)).
  induction Hd as [|[k e] l Hk _ IH]; intros acc; [done|].
  simpl. destruct e as [d| |]; [|done..]. simpl.
  unfold mbind at 1, M_bind at 1. simpl. apply IH.
Qed.

(** A user-defined feature without upstream and without cache starts from a
    zero image of its input shape; its transformation is applied to that image
    exactly when the draw does not exceed the probability. *)
Lemma resolve_source fuel self sh kwargs s n q :
  heap s !! self = Some n →
  cls n = UserFeature → parent n = None → cache n = None →
  Forall is_dist (__properties__ n) →
  keys_clash (snapshot n) kwargs = false →
  number (default (VInt 1) (probability n)) = Some q →
  let canvas := Image_of_array (zeros (input_shape_fn n sh)) in
  let out :=
    if bool_decide (rand s (drawn s) ≤ q)%Qc
    then append (get_fn n sh canvas (snapshot n ++ kwargs))
                (dict_set (snapshot n) "name" (VStr (__name__ n)))
    else canvas in
  __resolve__ (S (S fuel)) self sh kwargs s = Ok (out, drawn_and_cached self n out s).
Proof.
  intros Hn Hcls Hpar Hc Hd Hclash Hq canvas out.
  assert (input_image (λ p, __resolve__ (S fuel) p sh kwargs)
            (__input_shape__ (S fuel) self sh) n s = Ok (canvas, s)) as Him.
  { unfold input_image. rewrite Hpar. simpl.
    unfold mbind, M_bind, get_obj. rewrite Hn, Hcls. done. }
  rewrite (resolve_from_input _ _ _ _ _ _ _ _ Hn Hc Him).
  unfold np_random_rand, draw_le, lift, mbind, M_bind at 1 2. simpl. rewrite Hq.
  subst out.
  destruct (bool_decide (rand s (drawn s) ≤ q)%Qc).
  - unfold mbind at 1, M_bind at 1.
    unfold mbind at 1, M_bind at 1.
    erewrite get_properties_dists; [|exact Hn|exact Hd].
    rewrite Hclash, Hcls.
    unfold mbind, M_bind, mret, M_ret, get_obj. simpl. rewrite Hn. done.
  - unfold mbind, M_bind, mret, M_ret, get_obj. simpl. rewrite Hn. done.
Qed.

End OldFacts.

Module OldPasses.
Import Old OldFacts.

(** *** A cycle of upstream references *)

Lemma resolve_cycle (C : ident → Prop) s sh kwargs :
  upstream_cycle C s →
  (∀ x n, C x → heap s !! x = Some n → cache n = None) →
  ∀ fuel self, C self → __resolve__ fuel self sh kwargs s = Raise RecursionError.
Proof.
  intros Hcyc Hcache. induction fuel as [|fuel IH]; intros self Hself; [done|].
  destruct (Hcyc self Hself) as (n & p & Hn & Hp & HCp). simpl.
  rewrite (bind_step _ _ _ _ _ (old_get_obj_lookup _ _ _ Hn)).
  rewrite (Hcache _ _ Hself Hn).
  apply bind_Raise. unfold input_image. rewrite Hp. by apply IH.
Qed.

Lemma plain_cycle_put C h self n n' :
  plain_cycle C h → h !! self = Some n →
  parent n' = parent n → Forall is_dist (__properties__ n') →
  plain_cycle C (<[self := n']> h).
Proof.
  intros Hcyc Hn Hpar Hd x Hx. destruct (decide (x = self)) as [->|Hne].
  - destruct (Hcyc self Hx) as (m & p & Hm & Hp & HCp & _).
    assert (m = n) as -> by congruence.
    exists n', p. rewrite lookup_insert_eq. by rewrite Hpar.
  - rewrite lookup_insert_ne by done. by apply Hcyc.
Qed.

Lemma update_distributions_plain C self fuel l :
  C self → Forall is_dist l →
  ∀ i history s, plain_cycle C (heap s) →
    ∃ s', foldM_i (λ history i kv,
                     match kv.2 with
                     | EDist d => update_distribution self i kv.1 d ;; mret history
                     | EFeature f => __update__ fuel f history
                     | EStr _ => raise AttributeError
                     end) i history l s = Ok (history, s')
          ∧ plain_cycle C (heap s').
Proof.
  intros Hself Hl. induction Hl as [|[k e] l Hk _ IH]; intros i history s Hcyc.
  - by exists s.
  - destruct e as [d| |]; [|done..]. simpl.
    destruct (Hcyc self Hself) as (n & p & Hn & Hp & HCp & Hd).
    assert (∃ s1, (update_distribution self i k d ≫= λ _, mret history) s = Ok (history, s1)
                  ∧ plain_cycle C (heap s1)) as (s1 & Hs1 & Hcyc1).
    { unfold update_distribution, Distribution_update.
      destruct (rule d) as [v|f]; eexists;
        (split; [unfold mbind, M_bind, mret, M_ret, get_obj, np_random_rand; simpl;
                 rewrite Hn; reflexivity|]);
        simpl; (eapply plain_cycle_put; [done..|]); simpl;
        by apply Forall_insert. }
    rewrite (bind_step _ _ _ _ _ Hs1). by apply IH.
Qed.

Lemma update_plain C fuel self history s :
  plain_cycle C (heap s) → C self →
  ∃ history' s', __update__ (S fuel) self history s = Ok (history', s')
                 ∧ plain_cycle C (heap s').
Proof.
  intros Hcyc Hself. destruct (Hcyc self Hself) as (n & p & Hn & Hp & HCp & Hd).
  simpl. rewrite (bind_step _ _ _ _ _ (old_get_obj_lookup _ _ _ Hn)).
  case_bool_decide; [by exists history, s|].
  assert (∀ s1, heap s1 = heap s →
    ∃ history' s', foldM_i (λ history i kv,
                     match kv.2 with
                     | EDist d => update_distribution self i kv.1 d ;; mret history
                     | EFeature f => __update__ fuel f history
                     | EStr _ => raise AttributeError
                     end) 0 (history ++ [self]) (__properties__ n) s1 = Ok (history', s')
                   ∧ plain_cycle C (heap s')) as Hfold.
  { intros s1 Hs1. destruct (update_distributions_plain C self fuel _ Hself Hd
      0 (history ++ [self]) s1) as (s' & Hs' & Hcyc'); [by rewrite Hs1|]. eauto. }
  destruct (cls n).
  - unfold log_resample, modify, mbind at 1, M_bind at 1. by apply Hfold.
  - unfold log_resample, modify, mbind at 1, M_bind at 1. by apply Hfold.
  - eexists _, _. split.
    + unfold mbind, M_bind, mret, M_ret, get_obj, next_iter. simpl. rewrite Hn. reflexivity.
    + simpl. by eapply plain_cycle_put.
Qed.

Lemma rupdate_cycle (C : ident → Prop) :
  ∀ fuel self history s,
    plain_cycle C (heap s) → C self →
    __rupdate__ fuel self history s = Raise RecursionError.
Proof.
  induction fuel as [|fuel IH]; intros self history s Hcyc Hself; [done|].
  simpl. destruct fuel as [|fuel]; [done|].
  destruct (update_plain C fuel self history s Hcyc Hself) as (h' & s' & Hupd & Hcyc').
  rewrite (bind_step _ _ _ _ _ Hupd).
  destruct (Hcyc' self Hself) as (n & p & Hn & Hp & HCp & _).
  rewrite (bind_step _ _ _ _ _ (old_get_obj_lookup _ _ _ Hn)). rewrite Hp.
  by apply IH.
Qed.

(** *** One pass of [__rupdate__] resamples a feature at most once *)

Lemma old_pass_step_refl x : pass_step x x.
Proof.
  split; [done|]. exists []. rewrite app_nil_r.
  split; [done|]. split; [constructor|]. intros k Hk. by apply elem_of_nil in Hk.
Qed.

Lemma old_pass_step_same history s s' :
  resampled s' = resampled s → pass_step (history, s) (history, s').
Proof.
  intros Hr. split; [done|]. exists []. simpl. rewrite app_nil_r.
  split; [done|]. split; [constructor|]. intros k Hk. by apply elem_of_nil in Hk.
Qed.

Lemma old_pass_step_trans x y z : pass_step x y → pass_step y z → pass_step x z.
Proof.
  intros [Hxy (l1 & Hl1 & Hnd1 & Hin1)] [Hyz (l2 & Hl2 & Hnd2 & Hin2)].
  split; [auto|]. exists (l1 ++ l2). split; [by rewrite Hl2, Hl1, app_assoc|]. split.
  - apply NoDup_app. split; [done|]. split; [|done].
    intros k Hk1 Hk2. destruct (Hin2 k Hk2) as [Hny _]. apply Hny. by apply Hin1.
  - intros k [Hk|Hk]%elem_of_app.
    + destruct (Hin1 k Hk). auto.
    + destruct (Hin2 k Hk). split; [|done]. intros ?. auto.
Qed.

Lemma old_update_pass_step :
  ∀ fuel self history s history' s',
    __update__ fuel self history s = Ok (history', s') →
    pass_step (history, s) (history', s').
Proof.
  induction fuel as [|fuel IH]; intros self history s history' s' H; [done|].
  simpl in H. inv_bind H as Hn. apply old_get_obj_Ok in Hn as [Hn ->].
  case_bool_decide as Hin.
  { apply mret_Ok in H as [-> ->]. apply old_pass_step_refl. }
  assert (∀ s1 history1,
    foldM_i (λ history i kv,
               match kv.2 with
               | EDist d => update_distribution self i kv.1 d ;; mret history
               | EFeature f => __update__ fuel f history
               | EStr _ => raise AttributeError
               end) 0 history1 (__properties__ a) s1 = Ok (history', s') →
    pass_step (history1, s1) (history', s')) as Hfold.
  { intros s1 history1. apply (foldM_i_inv pass_step).
    - apply old_pass_step_refl.
    - apply old_pass_step_trans.
    - intros acc i [k e] σ acc' σ' _ Hbody. destruct e as [d|f|p]; simpl in Hbody.
      + inv_bind Hbody as Hd. apply mret_Ok in Hbody as [-> ->].
        apply old_pass_step_same.
        unfold update_distribution in Hd. inv_bind Hd as Hd'.
        inv_bind Hd as Hm. apply old_get_obj_Ok in Hm as [_ ->].
        inversion Hd; subst. simpl.
        unfold Distribution_update in Hd'. destruct (rule d).
        * by apply mret_Ok in Hd' as [_ ->].
        * inv_bind Hd' as Hr. apply mret_Ok in Hd' as [_ ->]. by inversion Hr.
      + by eapply IH.
      + done. }
  assert (∀ s1, resampled s1 = resampled s ++ [self] →
    pass_step (history ++ [self], s1) (history', s') →
    pass_step (history, s) (history', s')) as Hlog.
  { intros s1 Hs1 [Hsub (l & Hl & Hnd & Hl')]. simpl in *. split; simpl.
    - intros k Hk. apply Hsub, elem_of_app. by left.
    - exists (self :: l). split; [by rewrite Hl, Hs1, <- app_assoc|]. split.
      + constructor; [|done]. intros Hself. destruct (Hl' _ Hself) as [Hnot _].
        apply Hnot, elem_of_app. right. by left.
      + intros k [->|Hk]%elem_of_cons.
        * split; [done|]. apply Hsub, elem_of_app. right. by left.
        * destruct (Hl' _ Hk) as [Hnot ?]. split; [|done].
          intros ?. apply Hnot, elem_of_app. by left. }
  destruct (cls a).
  - inv_bind H as Hlg. inversion Hlg; subst. eapply Hlog; [|by apply Hfold]. done.
  - inv_bind H as Hlg. inversion Hlg; subst. eapply Hlog; [|by apply Hfold]. done.
  - inv_bind H as Hnx. inversion Hnx; subst.
    inv_bind H as Hm. apply old_get_obj_Ok in Hm as [_ ->].
    inv_bind H as Hput. inversion Hput; subst.
    apply mret_Ok in H as [<- <-]. split; simpl.
    + intros k Hk. apply elem_of_app. by left.
    + exists []. simpl. rewrite app_nil_r. split; [done|]. split; [constructor|].
      intros k Hk. by apply elem_of_nil in Hk.
Qed.

Lemma rupdate_pass_step :
  ∀ fuel self history s history' s',
    __rupdate__ fuel self history s = Ok (history', s') →
    pass_step (history, s) (history', s').
Proof.
  induction fuel as [|fuel IH]; intros self history s history' s' H; [done|].
  simpl in H. inv_bind H as Hupd. apply old_update_pass_step in Hupd.
  inv_bind H as Hn. apply old_get_obj_Ok in Hn as [Hn ->].
  destruct (parent a0) as [[| |p]|]; try done.
  - eapply old_pass_step_trans; [exact Hupd|]. by eapply IH.
  - by apply mret_Ok in H as [<- <-].
Qed.

Lemma rupdate_at_most_once fuel self history s history' s' j :
  __rupdate__ fuel self history s = Ok (history', s') →
  times_resampled j s' ≤ times_resampled j s + 1.
Proof.
  intros [_ (l & Hl & Hnd & _)]%rupdate_pass_step. simpl in Hl.
  unfold times_resampled. rewrite Hl, filter_app, length_app.
  pose proof (count_NoDup j l Hnd). lia.
Qed.

End OldPasses.

Module OldOperators.
Import Old OldFacts.

Lemma old_kept_refl s : kept s s.
Proof. by intros k n. Qed.

Lemma old_kept_trans s1 s2 s3 : kept s1 s2 → kept s2 s3 → kept s1 s3.
Proof. intros H12 H23 k n Hk. eauto. Qed.

Lemma old_alloc_fresh n s y s' :
  alloc n s = Ok (y, s') →
  heap s !! y = None ∧ heap s' = <[y := n]> (heap s).
Proof.
  unfold alloc. intros [= <- <-]. split; [|done].
  apply not_elem_of_dom, is_fresh.
Qed.

Lemma kept_insert_fresh s s' y n :
  heap s !! y = None → heap s' = <[y := n]> (heap s) → kept s s'.
Proof.
  intros Hy Hs' k m Hk. rewrite Hs'. rewrite lookup_insert_ne; [done|]. congruence.
Qed.

(** [copy.deepcopy] leaves every existing object as it is; the copy of an object
    that was not copied before is a new object of the same class, with the same
    [get], name, cache and probability. *)
Lemma deepcopy_kept :
  ∀ fuel x memo s y memo' s',
    deepcopy fuel x memo s = Ok ((y, memo'), s') →
    kept s s'
    ∧ (memo !! x = None →
       heap s !! y = None
       ∧ ∃ n props par, heap s !! x = Some n
                        ∧ heap s' !! y = Some (set_parent par (set_properties props n))).
Proof.
  induction fuel as [|fuel IH]; intros x memo s y memo' s' H; [done|].
  simpl in H. destruct (memo !! x) as [y0|] eqn:Hmemo.
  { apply mret_Ok in H as [[= -> ->] ->]. split; [apply old_kept_refl|done]. }
  inv_bind H as Hn. apply old_get_obj_Ok in Hn as [Hn ->].
  destruct (cls a) eqn:Hcls; [| |done].
  all: inv_bind H as Hy; apply old_alloc_fresh in Hy as [Hy Hheap];
    inv_bind H as Hprops; destruct a1 as [props memo1];
    inv_bind H as Hpar; destruct a1 as [par memo2];
    inv_bind H as Hput; inversion Hput; subst; clear Hput;
    apply mret_Ok in H as [[= <- <-] <-].
  all: assert (kept σ σ0) as Hk1
    by (revert Hprops; apply (foldM_inv (λ x y, kept x.2 y.2));
        [intros; apply old_kept_refl
        |intros ???; apply old_kept_trans
        |intros [ps m0] [k e] σa [ps' m'] σb _ Hb; simpl in *;
         destruct e as [d|f|p];
         [by apply mret_Ok in Hb as [_ ->]; apply old_kept_refl
         |inv_bind Hb as Hc; destruct a1; apply mret_Ok in Hb as [_ ->];
          by apply IH in Hc as [? _]
         |by apply mret_Ok in Hb as [_ ->]; apply old_kept_refl]]).
  all: assert (kept σ0 σ1) as Hk2
    by (destruct (parent a) as [[| |p]|];
        [by apply mret_Ok in Hpar as [_ ->]; apply old_kept_refl
        |by apply mret_Ok in Hpar as [_ ->]; apply old_kept_refl
        |inv_bind Hpar as Hc; destruct a1; apply mret_Ok in Hpar as [_ ->];
         by apply IH in Hc as [? _]
        |by apply mret_Ok in Hpar as [_ ->]; apply old_kept_refl]).
  all: split;
    [intros k m Hk; simpl; rewrite lookup_insert_ne by congruence;
     apply Hk2, Hk1; rewrite Hheap; by rewrite lookup_insert_ne by congruence
    |intros _; split; [done|]; exists a, props, par; split; [done|];
     simpl; apply lookup_insert_eq].
Qed.

(** [setParent] returns only for a user-defined feature that has no parent
    yet: the upstream is stored in it, and it is the result. *)
Lemma setParent_Ok fuel self F s r s' :
  setParent fuel self F s = Ok (r, s') →
  r = self
  ∧ ∃ n, heap s !! self = Some n ∧ cls n = UserFeature ∧ parent n = None
         ∧ heap s' = <[self := set_parent (Some F) n]> (heap s).
Proof.
  destruct fuel as [|fuel]; [done|]. simpl. intros H.
  inv_bind H as Hn. apply old_get_obj_Ok in Hn as [Hn ->].
  destruct (cls a) eqn:Hcls.
  - destruct (parent a) eqn:Hpar.
    + exfalso. inv_bind H as HG. apply old_alloc_fresh in HG as [_ HG].
      destruct fuel as [|fuel]; [done|]. simpl in H.
      inv_bind H as Hg. apply old_get_obj_Ok in Hg as [Hg ->].
      rewrite HG, lookup_insert_eq in Hg. injection Hg as <-. simpl in H.
      inv_bind H as Hput. inv_bind H as Hprop. inv_bind H as Hfeat. done.
    + inv_bind H as Hput. inversion Hput; subst.
      apply mret_Ok in H as [<- <-]. split; [done|]. exists a. done.
  - exfalso. inv_bind H as Hput. inv_bind H as Hprop. inv_bind H as Hfeat. done.
  - done.
Qed.



End OldOperators.

(** ** The newer engine: facts *)

Module NewFacts.
Import New.

Lemma get_obj_Ok self s n s' : get_obj self s = Ok (n, s') ↔ heap s !! self = Some n ∧ s' = s.
Proof.
  unfold get_obj. destruct (heap s !! self); split.
  - by inversion 1.
  - intros [[= ->] ->]. done.
  - discriminate.
  - intros [[=] _].
Qed.

Lemma get_obj_lookup self s n : heap s !! self = Some n → get_obj self s = Ok (n, s).
Proof. intros. by apply get_obj_Ok. Qed.

Lemma lift_Ok {A} (r : res A) (s : state) a s' :
  lift r s = Ok (a, s') ↔ r = Ok a ∧ s' = s.
Proof.
  unfold lift. destruct r; split.
  - by inversion 1.
  - by intros [[= ->] ->].
  - discriminate.
  - by intros [[=] _].
Qed.

Lemma alloc_fresh n s y s' :
  alloc n s = Ok (y, s') →
  heap s !! y = None ∧ s' = set_heap (<[y := n]> (heap s)) s.
Proof.
  unfold alloc. intros [= <- <-]. split; [|done].
  apply not_elem_of_dom, is_fresh.
Qed.

(** *** The gate of the newer engine *)

Lemma resolve_gate_skip fuel self image global_kwargs s n go :
  heap s !! self = Some n → cls n = Probability →
  gate_decision self global_kwargs s = Ok false →
  verbosity_le (__property_verbosity__ n)
    (default (PData (VInt 1)) (dict_get global_kwargs "property_verbosity")) = Ok go →
  resolve (S fuel) self image global_kwargs s
  = Ok (recorded n global_kwargs go image,
        set_heap (<[self := set_flag false n]> (heap s)) s).
Proof.
  intros Hn Hcls Hgate Hverb. unfold gate_decision in Hgate. rewrite Hn in Hgate.
  simpl. rewrite (bind_step _ _ _ _ _ (get_obj_lookup _ _ _ Hn)). rewrite Hcls.
  unfold feature_input in Hgate. unfold lift, mbind, M_bind, mret, M_ret, get_obj.
  rewrite Hgate, Hverb, Hn. done.
Qed.

Lemma resolve_gate_apply fuel self image global_kwargs s n f :
  heap s !! self = Some n → cls n = Probability →
  gate_decision self global_kwargs s = Ok true →
  as_feature (dict_get (feature_input n global_kwargs) "feature") = Ok f →
  resolve (S fuel) self image global_kwargs s
  = (image ← resolve fuel f image
               (dict_remove_all (feature_input n global_kwargs)
                                ["feature"; "probability"; "random_number"]) ;
     go ← lift (verbosity_le (__property_verbosity__ n)
                  (default (PData (VInt 1))
                           (dict_get global_kwargs "property_verbosity"))) ;
     m ← get_obj self ;
     put_obj self (set_flag false m) ;;
     mret (recorded n global_kwargs go image)) s.
Proof.
  intros Hn Hcls Hgate Hf. unfold gate_decision in Hgate. rewrite Hn in Hgate.
  simpl. rewrite (bind_step _ _ _ _ _ (get_obj_lookup _ _ _ Hn)). rewrite Hcls.
  unfold feature_input in Hgate, Hf. unfold lift, mbind, M_bind.
  rewrite Hgate, Hf. done.
Qed.

(** With probability one every draw below one passes the test, with
    probability zero no draw that is at least zero does. *)
Lemma lt_values_one (r : Qc) :
  (r < 1)%Qc → lt_values (Some (PData (VFloat r))) (Some (PData (VInt 1))) = Ok true.
Proof.
  intros Hr. simpl. f_equal. apply bool_decide_eq_true.
  replace (Q2Qc (inject_Z 1)) with 1%Qc; [done|]. by apply Qc_is_canon.
Qed.

Lemma lt_values_zero (r : Qc) :
  (0 ≤ r)%Qc → lt_values (Some (PData (VFloat r))) (Some (PData (VInt 0))) = Ok false.
Proof.
  intros Hr. simpl. f_equal. apply bool_decide_eq_false.
  replace (Q2Qc (inject_Z 0)) with 0%Qc; [by apply Qcle_not_lt|]. by apply Qc_is_canon.
Qed.

(** *** The operators only add an object *)




End NewFacts.

Module NewDuplicate.
Import New NewFacts.




Lemma update_unfold fuel self :
  update (S fuel) self
  = (n ← get_obj self ;
     (if has_updated_since_last_resolve n then mret tt
      else PropertyDict_update (update fuel) (deepcopy fuel) self) ;;
     m ← get_obj self ;
     put_obj self (set_flag true m) ;;
     mret self).
Proof. done. Qed.





End NewDuplicate.

Module NewResolve.
Import New NewFacts.

(** *** [resolve] only clears update flags *)

Lemma unflagged_put_flag s self m b :
  heap s !! self = Some m →
  unflagged (set_heap (<[self := set_flag b m]> (heap s)) s) = unflagged s.
Proof.
  intros Hm. unfold unflagged, set_heap. simpl. f_equal.
  rewrite fmap_insert. apply insert_id. rewrite lookup_fmap, Hm. done.
Qed.

Lemma unflagged_lookup s1 s2 x :
  unflagged s1 = unflagged s2 →
  match heap s1 !! x, heap s2 !! x with
  | Some n1, Some n2 => set_flag false n1 = set_flag false n2
  | None, None => True
  | _, _ => False
  end.
Proof.
  intros Heq. assert (heap (unflagged s1) !! x = heap (unflagged s2) !! x) as Hx
    by (by rewrite Heq).
  simpl in Hx. rewrite !lookup_fmap in Hx.
  destruct (heap s1 !! x), (heap s2 !! x); simpl in Hx; try done.
  by apply (inj Some).
Qed.

Lemma unflagged_put s1 s2 x n :
  unflagged s1 = unflagged s2 →
  unflagged (set_heap (<[x := n]> (heap s1)) s1)
  = unflagged (set_heap (<[x := n]> (heap s2)) s2).
Proof.
  unfold unflagged, set_heap. simpl. intros [= Hh -> -> -> -> ->].
  by rewrite !fmap_insert, Hh.
Qed.

Lemma sim_bind {A B} (m : M state A) (k : A → M state B) s1 s2 :
  sim (m s1) (m s2) →
  (∀ a t1 t2, unflagged t1 = unflagged t2 → sim (k a t1) (k a t2)) →
  sim ((m ≫= k) s1) ((m ≫= k) s2).
Proof.
  unfold mbind, M_bind, sim at 1.
  destruct (m s1) as [[a1 t1]|e1], (m s2) as [[a2 t2]|e2]; try done.
  intros [-> Ht] Hk. by apply Hk.
Qed.

Lemma sim_lift {A} (r : res A) s1 s2 :
  unflagged s1 = unflagged s2 → sim (lift r s1) (lift r s2).
Proof. intros. unfold lift. by destruct r. Qed.

Lemma sim_get_obj {B} x (k : Feature → M state B) s1 s2 :
  unflagged s1 = unflagged s2 →
  (∀ n1 n2, heap s1 !! x = Some n1 → heap s2 !! x = Some n2 →
            set_flag false n1 = set_flag false n2 → sim (k n1 s1) (k n2 s2)) →
  sim ((get_obj x ≫= k) s1) ((get_obj x ≫= k) s2).
Proof.
  intros Heq Hk. pose proof (unflagged_lookup s1 s2 x Heq) as Hx.
  unfold mbind, M_bind, get_obj.
  destruct (heap s1 !! x) as [n1|], (heap s2 !! x) as [n2|]; try done.
  by apply Hk.
Qed.

Lemma sim_foldM {A B} (body : B → A → M state B) l :
  (∀ acc a t1 t2, unflagged t1 = unflagged t2 → sim (body acc a t1) (body acc a t2)) →
  ∀ acc t1 t2, unflagged t1 = unflagged t2 →
    sim (foldM body acc l t1) (foldM body acc l t2).
Proof.
  intros Hbody. induction l as [|a l IH]; intros acc t1 t2 Heq; [done|].
  simpl. apply sim_bind; [by apply Hbody|]. intros. by apply IH.
Qed.

Lemma resolve_unflagged :
  ∀ fuel self image global_kwargs s r s',
    resolve fuel self image global_kwargs s = Ok (r, s') →
    unflagged s' = unflagged s.
Proof.
  induction fuel as [|fuel IH]; intros self image kw s r s' H; [done|].
  simpl in H. inv_bind H as Hn n s0. apply get_obj_Ok in Hn as [Hn ->].
  inv_bind H as Hget im s1.
  inv_bind H as Hverb go s2. apply lift_Ok in Hverb as [_ ->].
  inv_bind H as Hm m s3. apply get_obj_Ok in Hm as [Hm ->].
  inv_bind H as Hput. inversion Hput; subst. apply mret_Ok in H as [_ <-].
  rewrite (unflagged_put_flag _ _ _ _ Hm).
  clear Hm Hput. destruct (cls n).
  - by apply mret_Ok in Hget as [_ ->].
  - inv_bind Hget as Hf1 f1 t1. apply lift_Ok in Hf1 as [_ ->].
    inv_bind Hget as Hr1 im1 t2.
    inv_bind Hget as Hf2 f2 t3. apply lift_Ok in Hf2 as [_ ->].
    apply IH in Hr1, Hget. congruence.
  - inv_bind Hget as Hgo b t1. apply lift_Ok in Hgo as [_ ->].
    destruct b.
    + inv_bind Hget as Hf f t2. apply lift_Ok in Hf as [_ ->]. by eapply IH.
    + by apply mret_Ok in Hget as [_ ->].
  - destruct (dict_get _ "features") as [[| |fs]|]; try done.
    revert Hget. apply (foldM_inv (λ x y, unflagged (y.2) = unflagged (x.2))).
    + done.
    + intros ??? H1 H2. congruence.
    + intros acc f σ acc' σ' _ Hb. simpl. by eapply IH.
  - inv_bind Hget as Hf1 f1 t1. apply lift_Ok in Hf1 as [_ ->].
    inv_bind Hget as Hf2 f2 t2. apply lift_Ok in Hf2 as [_ ->].
    inv_bind Hget as Hm2 m2 t3. apply get_obj_Ok in Hm2 as [_ ->].
    destruct (keys_clash _ _); [done|].
    inv_bind Hget as Hr1 im1 t4. apply IH in Hr1, Hget. congruence.
  - destruct (dict_get _ "loaded_image") as [[[]| |]|]; try done.
    by apply mret_Ok in Hget as [_ ->].
Qed.

Lemma resolve_sim :
  ∀ fuel self image global_kwargs s1 s2,
    unflagged s1 = unflagged s2 →
    sim (resolve fuel self image global_kwargs s1)
        (resolve fuel self image global_kwargs s2).
Proof.
  induction fuel as [|fuel IH]; intros self image kw s1 s2 Heq; [done|].
  simpl. apply sim_get_obj; [done|]. intros n1 n2 _ _ Hn.
  destruct n1 as [c1 nm1 vb1 g1 p1 ps1 fl1 ft1], n2 as [c2 nm2 vb2 g2 p2 ps2 fl2 ft2].
  injection Hn as -> -> -> -> -> -> ->. unfold current_value_dict. simpl.
  apply sim_bind.
  - destruct c2.
    + done.
    + apply sim_bind; [by apply sim_lift|]. intros f1 t1 t2 Ht.
      apply sim_bind; [by apply IH|]. intros im1 t3 t4 Ht'.
      apply sim_bind; [by apply sim_lift|]. intros f2 t5 t6 Ht''. by apply IH.
    + apply sim_bind; [by apply sim_lift|]. intros [] t1 t2 Ht; [|done].
      apply sim_bind; [by apply sim_lift|]. intros f t3 t4 Ht'. by apply IH.
    + destruct (dict_get _ "features") as [[| |fs]|]; try done.
      apply sim_foldM; [|done]. intros. by apply IH.
    + apply sim_bind; [by apply sim_lift|]. intros f1 t1 t2 Ht.
      apply sim_bind; [by apply sim_lift|]. intros f2 t3 t4 Ht'.
      apply sim_get_obj; [done|]. intros m1 m2 _ _ Hm.
      assert (properties m1 = properties m2) as Hps
        by (destruct m1, m2; by injection Hm).
      unfold current_value_dict. rewrite Hps.
      destruct (keys_clash _ _); [done|].
      apply sim_bind; [by apply IH|]. intros im1 t5 t6 Ht''. by apply IH.
    + destruct (dict_get _ "loaded_image") as [[[]| |]|]; done.
  - intros im t1 t2 Ht. apply sim_bind; [by apply sim_lift|]. intros go t3 t4 Ht'.
    apply sim_get_obj; [done|]. intros m1 m2 _ _ Hm.
    unfold put_obj, modify, mbind, M_bind, mret, M_ret. simpl. split; [done|].
    assert (set_flag false m1 = set_flag false m2) as -> by done.
    by apply unflagged_put.
Qed.

(** A second [resolve] with the same arguments returns the same image. *)
Lemma resolve_again fuel self image global_kwargs s r s' :
  resolve fuel self image global_kwargs s = Ok (r, s') →
  ∃ s'', resolve fuel self image global_kwargs s' = Ok (r, s'').
Proof.
  intros H. pose proof (resolve_unflagged _ _ _ _ _ _ _ H) as Heq.
  pose proof (resolve_sim fuel self image global_kwargs s' s Heq) as Hsim.
  rewrite H in Hsim. unfold sim in Hsim.
  destruct (resolve fuel self image global_kwargs s') as [[r' s'']|e]; [|done].
  destruct Hsim as [-> _]. by exists s''.
Qed.


End NewResolve.

Module NewCopy.
Import New NewFacts.

(** *** Deep copies of a DAG *)

Lemma kept_refl s : kept s s.
Proof. by intros k n. Qed.

Lemma kept_trans s1 s2 s3 : kept s1 s2 → kept s2 s3 → kept s1 s3.
Proof. intros H12 H23 k n Hk. eauto. Qed.

Lemma kept_is_Some s s' k : kept s s' → is_Some (heap s !! k) → is_Some (heap s' !! k).
Proof. intros Hk [n Hn]. exists n. by apply Hk. Qed.

Lemma copy_step_refl x : copy_step x x.
Proof.
  split; [apply kept_refl|]. split; [done|]. split; [reflexivity|].
  intros rank Hdag Hmemo. exists rank. split; [done|]. split; [|done].
  intros k Hk. reflexivity.
Qed.

Lemma copy_step_trans x y z : copy_step x y → copy_step y z → copy_step x z.
Proof.
  intros (Hk1 & Hr1 & Hm1 & Hrank1) (Hk2 & Hr2 & Hm2 & Hrank2).
  split; [by eapply kept_trans|]. split; [congruence|]. split; [by etrans|].
  intros rank Hdag Hmemo.
  destruct (Hrank1 rank Hdag Hmemo) as (rank1 & Hdag1 & Hag1 & Hmemo1).
  destruct (Hrank2 rank1 Hdag1 Hmemo1) as (rank2 & Hdag2 & Hag2 & Hmemo2).
  exists rank2. split; [done|]. split; [|done].
  intros k Hk. rewrite Hag2 by (by eapply kept_is_Some). by apply Hag1.
Qed.

Lemma copied_rule_mono memo memo' r r' :
  memo ⊆ memo' → copied_rule memo r r' → copied_rule memo' r r'.
Proof.
  intros Hsub. destruct r as [v| | |]; simpl; try done.
  intros (v' & -> & Hall). exists v'. split; [done|].
  eapply Forall2_impl; [exact Hall|]. intros f f' Hf. exact (lookup_weaken _ _ _ _ Hf Hsub).
Qed.

Section copies.
Variable copy : ident → gmap ident ident → M state (ident * gmap ident ident).
Hypothesis copy_spec :
  ∀ f memo s y memo' s',
    copy f memo s = Ok ((y, memo'), s') →
    copy_step (memo, s) (memo', s') ∧ memo' !! f = Some y.

Lemma copy_features_step fs :
  ∀ acc memo s acc' memo' s',
    foldM (λ '(acc, memo) f,
             '(f', memo) ← copy f memo ; mret (acc ++ [f'], memo))
          (acc, memo) fs s = Ok ((acc', memo'), s') →
    copy_step (memo, s) (memo', s')
    ∧ ∃ new, acc' = acc ++ new ∧ Forall2 (λ f f', memo' !! f = Some f') fs new.
Proof.
  induction fs as [|f fs IH]; intros acc memo s acc' memo' s' H.
  - apply mret_Ok in H as [[= <- <-] <-]. split; [apply copy_step_refl|].
    exists []. by rewrite app_nil_r.
  - simpl in H. inv_bind H as Hstep. destruct a as [acc1 memo1].
    inv_bind Hstep as Hf. destruct a as [f' memo2].
    apply mret_Ok in Hstep as [[= <- <-] <-].
    apply copy_spec in Hf as [Hf Hf'].
    apply IH in H as (Hrest & new & -> & Hnew).
    split; [by eapply copy_step_trans|].
    exists (f' :: new). split; [by rewrite <- app_assoc|].
    constructor; [|done]. destruct Hrest as (_ & _ & Hsub & _).
    exact (lookup_weaken _ _ _ _ Hf' Hsub).
Qed.

Lemma copy_pvalue_step v memo s v' memo' s' :
  copy_pvalue copy v memo s = Ok ((v', memo'), s') →
  copy_step (memo, s) (memo', s')
  ∧ Forall2 (λ f f', memo' !! f = Some f') (features_of v) (features_of v').
Proof.
  destruct v as [d|f|fs]; simpl; intros H.
  - apply mret_Ok in H as [[= <- <-] <-]. split; [apply copy_step_refl|constructor].
  - inv_bind H as Hf. destruct a as [f' memo1].
    apply mret_Ok in H as [[= <- <-] <-].
    apply copy_spec in Hf as [Hf Hf']. split; [done|]. simpl. by repeat constructor.
  - inv_bind H as Hfs. destruct a as [fs' memo1].
    apply mret_Ok in H as [[= <- <-] <-].
    apply copy_features_step in Hfs as (Hstep & new & -> & Hnew). done.
Qed.

Lemma copy_properties_step (l : dict Property) :
  ∀ props memo s props' memo' s',
    foldM (λ '(props, memo) kv,
             '(r, memo) ←
               match rule kv.2 with
               | Constant v =>
                   '(v', memo) ← copy_pvalue copy v memo ;
                   mret (Constant v', memo)
               | Iterator => raise TypeError
               | r => mret (r, memo)
               end ;
             '(v, memo) ← copy_pvalue copy (current_value kv.2) memo ;
             mret (props ++ [(kv.1, mkProperty r v)], memo))
          (props, memo) l s = Ok ((props', memo'), s') →
    copy_step (memo, s) (memo', s')
    ∧ ∃ new : dict Property,
        props' = props ++ new
        ∧ Forall2 (copied_rule memo') (map (λ kv, rule kv.2) l)
                                       (map (λ kv, rule kv.2) new).
Proof.
  induction l as [|[key p] l IH]; intros props memo s props' memo' s' H.
  - apply mret_Ok in H as [[= <- <-] <-]. split; [apply copy_step_refl|].
    exists []. by rewrite app_nil_r.
  - simpl in H. inv_bind H as Hstep. destruct a as [props1 memo1].
    inv_bind Hstep as Hrule. destruct a as [r memo2].
    inv_bind Hstep as Hval. destruct a as [v memo3].
    apply mret_Ok in Hstep as [[= <- <-] <-].
    apply copy_pvalue_step in Hval as [Hval _].
    apply IH in H as (Hrest & new & -> & Hnew).
    assert (copy_step (memo, s) (memo2, σ0) ∧ copied_rule memo2 (rule p) r)
      as [Hrule1 Hrule2].
    { destruct (rule p) as [v0|g|d f|].
      - inv_bind Hrule as Hv. destruct a as [v0' memo4].
        apply mret_Ok in Hrule as [[= <- <-] <-].
        apply copy_pvalue_step in Hv as [Hv Hv']. split; [done|]. by exists v0'.
      - apply mret_Ok in Hrule as [[= <- <-] <-]. split; [apply copy_step_refl|done].
      - apply mret_Ok in Hrule as [[= <- <-] <-]. split; [apply copy_step_refl|done].
      - done. }
    split; [eapply copy_step_trans; [|exact Hrest];
            by eapply copy_step_trans|].
    eexists (_ :: new). split; [by rewrite <- app_assoc|].
    simpl. constructor; [|done].
    eapply copied_rule_mono; [|exact Hrule2].
    destruct Hval as (_ & _ & Hsub1 & _), Hrest as (_ & _ & Hsub2 & _).
    simpl in *. by etrans.
Qed.
End copies.


Lemma alloc_copy_step memo s x n blank y s1 :
  heap s !! x = Some n → memo !! x = None → children blank = [] →
  alloc blank s = Ok (y, s1) →
  copy_step (memo, s) (<[x := y]> memo, s1).
Proof.
  intros Hx Hmx Hblank [Hy ->]%alloc_fresh.
  split; [|split; [done|split; [by apply insert_subseteq|]]].
  { intros k m Hk. simpl in *. rewrite lookup_insert_ne; [done|congruence]. }
  simpl. intros rank Hdag Hmemo.
  exists (λ k, if decide (k = y) then rank x else rank k).
  assert (∀ k, is_Some (heap s !! k) → k ≠ y) as Hne.
  { intros k [m Hk] ->. congruence. }
  split; [|split].
  - intros k nk c Hk Hc. simpl in Hk. destruct (decide (k = y)) as [->|Hky].
    + rewrite lookup_insert_eq in Hk. injection Hk as <-.
      rewrite Hblank in Hc. by apply elem_of_nil in Hc.
    + rewrite lookup_insert_ne in Hk by done.
      destruct (Hdag k nk c Hk Hc) as [Hc' Hlt].
      rewrite decide_False by (by apply Hne).
      split; [|done]. simpl. rewrite lookup_insert_ne; [done|].
      intros <-. by apply (Hne _ Hc').
  - intros k Hk. by rewrite decide_False by (by apply Hne).
  - intros a b [[<- <-]|[Hax Hab]]%lookup_insert_Some.
    + assert (x ≠ y) as Hxy by (apply Hne; eauto).
      simpl. rewrite lookup_insert_eq, lookup_insert_ne by done.
      rewrite decide_True by done. rewrite decide_False by done. eauto.
    + destruct (Hmemo a b Hab) as (Ha & Hb & Hrank).
      simpl. rewrite !lookup_insert_ne
        by (intros <-; first [exact (Hne _ Ha eq_refl)|exact (Hne _ Hb eq_refl)]).
      rewrite !decide_False by (by apply Hne). done.
Qed.

(** [copy.deepcopy] of a feature of a DAG gives a DAG again, in which the
    copy ranks as the original. *)
Lemma deepcopy_step :
  ∀ fuel x memo s y memo' s',
    deepcopy fuel x memo s = Ok ((y, memo'), s') →
    copy_step (memo, s) (memo', s') ∧ memo' !! x = Some y.
Proof.
  induction fuel as [|fuel IH]; intros x memo s y memo' s' H; [done|].
  simpl in H. destruct (memo !! x) as [y0|] eqn:Hmx.
  { apply mret_Ok in H as [[= <- <-] <-]. split; [apply copy_step_refl|done]. }
  inv_bind H as Hn n s0. apply get_obj_Ok in Hn as [Hn ->].
  inv_bind H as Hy y0 s1.
  pose proof (alloc_fresh _ _ _ _ Hy) as [Hfresh _].
  eapply alloc_copy_step in Hy; [|exact Hn|exact Hmx|done].
  inv_bind H as Hfeat a2 s2. destruct a2 as [feat memo2].
  inv_bind H as Hprops a3 s3. destruct a3 as [props memo3].
  inv_bind H as Hput. inversion Hput; subst. clear Hput.
  apply mret_Ok in H as [[= <- <-] <-].
  assert (copy_step (<[x := y0]> memo, s1) (memo2, s2)) as HB.
  { destruct (feature n) as [f|].
    - inv_bind Hfeat as Hf. destruct a as [f' memo4].
      apply mret_Ok in Hfeat as [[= <- <-] <-]. by apply IH in Hf as [? _].
    - apply mret_Ok in Hfeat as [[= <- <-] <-]. apply copy_step_refl. }
  apply (copy_properties_step _ IH) in Hprops as (HC & new & Hnew & Hrules).
  simpl in Hnew. subst new.
  pose proof (copy_step_trans _ _ _ Hy (copy_step_trans _ _ _ HB HC)) as HABC.
  destruct HABC as (Hkept & Hres & Hsub & Hrank). simpl in *.
  assert (memo3 !! x = Some y0) as Hxy.
  { destruct HB as (_ & _ & HsubB & _), HC as (_ & _ & HsubC & _). simpl in *.
    eapply lookup_weaken; [|exact HsubC]. eapply lookup_weaken; [|exact HsubB].
    apply lookup_insert_eq. }
  split; [|done].
  split; [|split; [done|split; [done|]]].
  { intros k m Hk. simpl in *. rewrite lookup_insert_ne by congruence. by apply Hkept. }
  simpl. intros rank Hdag Hmemo.
  destruct (Hrank rank Hdag Hmemo) as (rank3 & Hdag3 & Hag & Hmemo3).
  exists rank3. split; [|split; [done|]].
  - intros k nk c Hk Hc. simpl in Hk. destruct (decide (k = y0)) as [->|Hky].
    + rewrite lookup_insert_eq in Hk. injection Hk as <-.
      destruct (Hmemo3 x y0 Hxy) as (_ & _ & Hranky).
      assert (rank3 x = rank x) as Hrankx by (apply Hag; eauto).
      unfold children, rules_of in Hc. simpl in Hc.
      apply list_elem_of_In, in_flat_map in Hc as (r' & Hr' & Hc).
      apply list_elem_of_In in Hr', Hc.
      apply list_elem_of_lookup in Hr' as [i Hi].
      destruct (Forall2_lookup_r _ _ _ _ _ Hrules Hi) as (r & Hr & Hcopied).
      assert (∀ f, f ∈ rule_children r → is_Some (heap s !! f) ∧ rank f < rank x)
        as Hchild.
      { intros f Hf. apply (Hdag x n f Hn). unfold children.
        apply list_elem_of_In, in_flat_map. exists r.
        split; apply list_elem_of_In; [|done]. apply list_elem_of_lookup. eauto. }
      destruct r as [v|g|d f|]; simpl in Hcopied.
      * destruct Hcopied as (v' & -> & Hall). simpl in Hc.
        apply list_elem_of_lookup in Hc as [j Hj].
        destruct (Forall2_lookup_r _ _ _ _ _ Hall Hj) as (f & Hf & Hfc).
        destruct (Hchild f) as [Hfs Hlt].
        { simpl. apply list_elem_of_lookup. eauto. }
        destruct (Hmemo3 f c Hfc) as (_ & Hc3 & Hrankc).
        split.
        -- simpl. destruct (decide (c = y0)) as [->|Hcy].
           ++ rewrite lookup_insert_eq. eauto.
           ++ by rewrite lookup_insert_ne.
        -- rewrite Hranky, Hrankx, Hrankc. by rewrite (Hag f).
      * subst r'. by apply elem_of_nil in Hc.
      * subst r'. destruct (Hchild c Hc) as [Hcs Hlt]. split.
        -- simpl. rewrite lookup_insert_ne; [by eapply kept_is_Some|].
           intros <-. destruct Hcs. congruence.
        -- rewrite Hranky, Hrankx. by rewrite (Hag c).
      * done.
    + rewrite lookup_insert_ne in Hk by done.
      destruct (Hdag3 k nk c Hk Hc) as [Hc3 Hlt]. split; [|done].
      simpl. destruct (decide (c = y0)) as [->|Hcy].
      * rewrite lookup_insert_eq. eauto.
      * by rewrite lookup_insert_ne.
  - intros a b Hab. destruct (Hmemo3 a b Hab) as (Ha & Hb & Hr).
    assert (∀ k, is_Some (heap s3 !! k)
                 → is_Some (<[y0 := set_feature feat (set_properties props n)]>
                              (heap s3) !! k)) as Hin.
    { intros k Hk. destruct (decide (k = y0)) as [->|].
      - rewrite lookup_insert_eq. eauto.
      - by rewrite lookup_insert_ne. }
    simpl. auto.
Qed.

End NewCopy.

Module NewPasses.
Import New NewFacts NewCopy.

(** *** One pass of [update] over a DAG resamples a feature at most once *)

Lemma grows_refl s : grows s s.
Proof. intros k n Hk. by exists n. Qed.

Lemma grows_trans s1 s2 s3 : grows s1 s2 → grows s2 s3 → grows s1 s3.
Proof.
  intros H12 H23 k n Hk.
  destruct (H12 k n Hk) as (n2 & Hk2 & Hr2 & Hf2).
  destruct (H23 k n2 Hk2) as (n3 & Hk3 & Hr3 & Hf3).
  exists n3. split; [done|]. split; [congruence|auto].
Qed.

Lemma kept_grows s s' : kept s s' → grows s s'.
Proof. intros Hk k n Hn. exists n. split; [by apply Hk|done]. Qed.

Lemma grows_is_Some s s' k : grows s s' → is_Some (heap s !! k) → is_Some (heap s' !! k).
Proof. intros Hg [n Hn]. destruct (Hg k n Hn) as (n' & Hn' & _). eauto. Qed.

Lemma grows_flagged s s' k : grows s s' → flagged s k → flagged s' k.
Proof.
  intros Hg (n & Hn & Hf). destruct (Hg k n Hn) as (n' & Hn' & _ & Hf').
  exists n'. auto.
Qed.

Lemma grows_same s s' : heap s' = heap s → grows s s'.
Proof. intros Hh k n Hk. exists n. by rewrite Hh. Qed.

Lemma grows_put s k m m' :
  heap s !! k = Some m → rules_of m' = rules_of m →
  (has_updated_since_last_resolve m = true →
   has_updated_since_last_resolve m' = true) →
  grows s (set_heap (<[k := m']> (heap s)) s).
Proof.
  intros Hk Hr Hf j n Hj. simpl. destruct (decide (j = k)) as [->|Hne].
  - rewrite lookup_insert_eq. exists m'. assert (n = m) as -> by congruence. done.
  - rewrite lookup_insert_ne by done. by exists n.
Qed.

Lemma dag_same rank s s' : heap s' = heap s → dag rank s → dag rank s'.
Proof. intros Hh Hdag x n c. rewrite Hh. apply Hdag. Qed.

Lemma dag_put rank s k m m' :
  heap s !! k = Some m → rules_of m' = rules_of m →
  dag rank s → dag rank (set_heap (<[k := m']> (heap s)) s).
Proof.
  intros Hk Hr Hdag x n c Hx Hc. simpl in *.
  assert (is_Some (heap s !! c) ∧ rank c < rank x) as [Hc' Hlt].
  { destruct (decide (x = k)) as [->|Hne].
    - rewrite lookup_insert_eq in Hx. injection Hx as <-.
      apply (Hdag k m c Hk). unfold children in *. by rewrite <- Hr.
    - rewrite lookup_insert_ne in Hx by done. by apply (Hdag x n c). }
  split; [|done]. destruct (decide (c = k)) as [->|Hne].
  - rewrite lookup_insert_eq. eauto.
  - by rewrite lookup_insert_ne.
Qed.

Lemma pass_step_refl x b s : pass_step x b s s.
Proof.
  split; [apply grows_refl|]. exists []. rewrite app_nil_r.
  split; [done|]. split; [constructor|]. split.
  - intros k Hk. by apply elem_of_nil in Hk.
  - intros rank Hdag Hx. exists rank. split; [done|]. split; [by intros k|].
    intros k Hk. by apply elem_of_nil in Hk.
Qed.

Lemma pass_step_trans x b s1 s2 s3 :
  pass_step x b s1 s2 → pass_step x b s2 s3 → pass_step x b s1 s3.
Proof.
  intros (Hg1 & l1 & Hl1 & Hnd1 & Hfl1 & Hrk1) (Hg2 & l2 & Hl2 & Hnd2 & Hfl2 & Hrk2).
  split; [by eapply grows_trans|]. exists (l1 ++ l2).
  split; [by rewrite Hl2, Hl1, app_assoc|]. split; [|split].
  - apply NoDup_app. split; [done|]. split; [|done].
    intros k Hk1 Hk2. destruct (Hfl1 k Hk1) as [_ Hf]. by destruct (Hfl2 k Hk2).
  - intros k [Hk|Hk]%elem_of_app.
    + destruct (Hfl1 k Hk) as [Hn Hf]. split; [done|]. by eapply grows_flagged.
    + destruct (Hfl2 k Hk) as [Hn Hf]. split; [|done].
      intros Hf1. apply Hn. by eapply grows_flagged.
  - intros rank Hdag Hx.
    destruct (Hrk1 rank Hdag Hx) as (rank1 & Hdag1 & Hag1 & Hb1).
    destruct (Hrk2 rank1 Hdag1 (grows_is_Some _ _ _ Hg1 Hx)) as (rank2 & Hdag2 & Hag2 & Hb2).
    exists rank2. split; [done|]. split.
    + intros k Hk. rewrite Hag2 by (by eapply grows_is_Some). by apply Hag1.
    + intros k [Hk|Hk]%elem_of_app Hks; [by apply Hb1|].
      specialize (Hb2 k Hk (grows_is_Some _ _ _ Hg1 Hks)).
      by rewrite (Hag1 k Hks), (Hag1 x Hx) in Hb2.
Qed.

Lemma pass_step_flat x b s s' :
  grows s s' → resampled s' = resampled s →
  (∀ rank, dag rank s → dag rank s') →
  pass_step x b s s'.
Proof.
  intros Hg Hr Hdag. split; [done|]. exists []. rewrite app_nil_r.
  split; [done|]. split; [constructor|]. split.
  - intros k Hk. by apply elem_of_nil in Hk.
  - intros rank Hd Hx. exists rank. split; [auto|]. split; [by intros k|].
    intros k Hk. by apply elem_of_nil in Hk.
Qed.

Lemma pass_step_same x b s s' :
  heap s' = heap s → resampled s' = resampled s → pass_step x b s s'.
Proof.
  intros Hh Hr. apply pass_step_flat; [by apply grows_same|done|].
  intros rank. by apply dag_same.
Qed.

Lemma pass_step_put x b s k m m' :
  heap s !! k = Some m → rules_of m' = rules_of m →
  (has_updated_since_last_resolve m = true →
   has_updated_since_last_resolve m' = true) →
  pass_step x b s (set_heap (<[k := m']> (heap s)) s).
Proof.
  intros Hk Hr Hf. apply pass_step_flat; [by eapply grows_put|done|].
  intros rank. by eapply dag_put.
Qed.

(** A pass below [c] is a pass strictly below every feature above [c]. *)
Lemma pass_step_below x c s s' :
  pass_step c false s s' →
  (∀ rank, dag rank s → is_Some (heap s !! x) →
           is_Some (heap s !! c) ∧ rank c < rank x) →
  pass_step x true s s'.
Proof.
  intros (Hg & l & Hl & Hnd & Hfl & Hrk) Hc. split; [done|]. exists l.
  split; [done|]. split; [done|]. split; [done|].
  intros rank Hdag Hx. destruct (Hc rank Hdag Hx) as [Hcs Hlt].
  destruct (Hrk rank Hdag Hcs) as (rank' & Hdag' & Hag & Hb).
  exists rank'. split; [done|]. split; [done|].
  intros k Hk Hks. specialize (Hb k Hk Hks). simpl in Hb. lia.
Qed.

(** The update of a new deep copy of [F] is a pass strictly below every
    feature above [F]. *)
Lemma pass_step_copy x F fuel c memo s s1 s2 :
  deepcopy fuel F ∅ s = Ok ((c, memo), s1) →
  pass_step c false s1 s2 →
  (∀ rank, dag rank s → is_Some (heap s !! x) →
           is_Some (heap s !! F) ∧ rank F < rank x) →
  pass_step x true s s2.
Proof.
  intros [(Hkept & Hres & _ & Hcopy) HF]%deepcopy_step
         (Hg & l & Hl & Hnd & Hfl & Hrk) Hc. simpl in *.
  split; [eapply grows_trans; [by apply kept_grows|done]|]. exists l.
  split; [congruence|]. split; [done|]. split.
  - intros k Hk. destruct (Hfl k Hk) as [Hn Hf]. split; [|done].
    intros Hf1. apply Hn. eapply grows_flagged; [|exact Hf1]. by apply kept_grows.
  - intros rank Hdag Hx. destruct (Hc rank Hdag Hx) as [HFs Hlt].
    destruct (Hcopy rank Hdag) as (rank1 & Hdag1 & Hag1 & Hmemo1).
    { intros a b Hab. by rewrite lookup_empty in Hab. }
    destruct (Hmemo1 F c HF) as (_ & Hcs & Hrankc).
    destruct (Hrk rank1 Hdag1 Hcs) as (rank2 & Hdag2 & Hag2 & Hb).
    exists rank2. split; [done|]. split.
    + intros k Hk. rewrite Hag2 by (by eapply kept_is_Some). by apply Hag1.
    + intros k Hk Hks. specialize (Hb k Hk (kept_is_Some _ _ _ Hkept Hks)).
      simpl in Hb. rewrite Hrankc, (Hag1 k Hks), (Hag1 F HFs) in Hb. lia.
Qed.

Lemma good_step n x b s s' : good n x s → pass_step x b s s' → good n x s'.
Proof.
  intros [[rank Hdag] (m & Hm & Hr)] (Hg & l & _ & _ & _ & Hrk). split.
  - destruct (Hrk rank Hdag) as (rank' & Hdag' & _); eauto.
  - destruct (Hg x m Hm) as (m' & Hm' & Hr' & _). exists m'. split; [done|congruence].
Qed.

Lemma good_child n x s r c rank :
  good n x s → r ∈ rules_of n → c ∈ rule_children r →
  dag rank s → is_Some (heap s !! c) ∧ rank c < rank x.
Proof.
  intros [_ (m & Hm & Hr)] Hrn Hc Hdag. apply (Hdag x m c Hm).
  unfold children. rewrite Hr. apply list_elem_of_In, in_flat_map.
  exists r. by split; apply list_elem_of_In.
Qed.

Lemma rules_of_alter (m : Feature) i v :
  rules_of (set_properties
              (alter (λ kp, (kp.1, mkProperty (rule kp.2) v)) i (properties m)) m)
  = rules_of m.
Proof.
  unfold rules_of. simpl. unfold alter. generalize (properties m). intros l. revert i.
  induction l as [|[k p] l IH]; intros [|i]; simpl; try done. f_equal. apply IH.
Qed.

Section sampling.
Variables (fuel : nat) (n : Feature) (x : ident).
Hypothesis IH :
  ∀ c s r s', (∃ rank, dag rank s) → update fuel c s = Ok (r, s') →
              pass_step c false s s'.

Lemma sample_step r s v s' :
  good n x s → r ∈ rules_of n →
  Property_sample (update fuel) (deepcopy fuel) r s = Ok (v, s') →
  pass_step x true s s'.
Proof.
  intros Hgood Hr H. destruct r as [v0|g|d F|]; simpl in H.
  - inv_bind H as Hfold. apply mret_Ok in H as [_ <-].
    revert Hgood. revert Hfold.
    apply (foldM_inv (λ a b, good n x (a.2) → pass_step x true (a.2) (b.2))).
    + intros. apply pass_step_refl.
    + intros σa σb σc Hab Hbc Hg. eapply pass_step_trans; [by apply Hab|].
      apply Hbc. eapply good_step; [exact Hg|by apply Hab].
    + intros [] c t [] t' Hc Hb Hg. simpl in *.
      inv_bind Hb as Hupd. apply mret_Ok in Hb as [_ <-].
      eapply pass_step_below; [eapply IH; [by destruct Hg|exact Hupd]|].
      intros rank Hdag _. by eapply good_child.
  - inv_bind H as Hd. apply mret_Ok in H as [_ <-]. inversion Hd; subst.
    by apply pass_step_same.
  - inv_bind H as Hd dn s0. apply get_obj_Ok in Hd as [_ ->].
    destruct (dict_get (properties dn) "num_duplicates") as [p|]; [|done].
    destruct (current_value p) as [[|z| | |]| |]; try done.
    inv_bind H as Hmap. apply mret_Ok in H as [_ <-].
    revert Hgood. revert Hmap.
    apply (mapM_inv (λ a b, good n x a → pass_step x true a b)).
    + intros. apply pass_step_refl.
    + intros σa σb σc Hab Hbc Hg. eapply pass_step_trans; [by apply Hab|].
      apply Hbc. eapply good_step; [exact Hg|by apply Hab].
    + intros i t c t' _ Hb Hg.
      inv_bind Hb as Hcopy cm t1. destruct cm as [c0 memo].
      pose proof (deepcopy_step _ _ _ _ _ _ _ Hcopy) as [(_ & _ & _ & Hrank) _].
      simpl in Hrank.
      eapply pass_step_copy; [exact Hcopy| |].
      * eapply IH; [|exact Hb]. destruct Hg as [[rank Hdag] _].
        destruct (Hrank rank Hdag) as (rank1 & Hdag1 & _); [|eauto].
        intros o o' Hab. by rewrite lookup_empty in Hab.
      * intros rank Hdag _. eapply good_child; [done..| |done]. simpl. by left.
  - inv_bind H as Hd. apply mret_Ok in H as [_ <-]. inversion Hd; subst.
    by apply pass_step_same.
Qed.

Lemma properties_step (l : dict Property) :
  (∀ kv, kv ∈ l → rule kv.2 ∈ rules_of n) →
  ∀ i s s',
    good n x s →
    foldM_i (λ _ i kv,
               v ← Property_sample (update fuel) (deepcopy fuel) (rule kv.2) ;
               m ← get_obj x ;
               put_obj x (set_properties
                 (alter (λ kp, (kp.1, mkProperty (rule kp.2) v)) i (properties m)) m))
            i tt l s = Ok (tt, s') →
    pass_step x true s s'.
Proof.
  intros Hl i s s' Hgood H. revert Hgood. revert H.
  apply (foldM_i_inv (λ a b, good n x (a.2) → pass_step x true (a.2) (b.2))).
  - intros. apply pass_step_refl.
  - intros σa σb σc Hab Hbc Hg. eapply pass_step_trans; [by apply Hab|].
    apply Hbc. eapply good_step; [exact Hg|by apply Hab].
  - intros [] j kv t [] t' Hkv Hb Hg. simpl in *.
    inv_bind Hb as Hv v σ1. inv_bind Hb as Hm m σ2.
    apply get_obj_Ok in Hm as [Hm ->]. inversion Hb; subst.
    eapply pass_step_trans; [eapply sample_step; [done|by apply Hl|exact Hv]|].
    eapply pass_step_put; [done|apply rules_of_alter|done].
Qed.
End sampling.


Lemma update_pass_step :
  ∀ fuel x s r s',
    (∃ rank, dag rank s) → update fuel x s = Ok (r, s') →
    r = x ∧ pass_step x false s s'.
Proof.
  induction fuel as [|fuel IH]; intros x s r s' [rank0 Hdag0] H; [done|].
  simpl in H. inv_bind H as Hn n s0. apply get_obj_Ok in Hn as [Hn ->].
  inv_bind H as Hprops u s2.
  inv_bind H as Hm m s3. apply get_obj_Ok in Hm as [Hm ->].
  inv_bind H as Hput. inversion Hput; subst. clear Hput.
  apply mret_Ok in H as [<- <-]. split; [done|].
  assert (pass_step x false s2
            (set_heap (<[x := set_flag true m]> (heap s2)) s2)) as Hlast
    by (by eapply pass_step_put).
  destruct (has_updated_since_last_resolve n) eqn:Hflag.
  { by apply mret_Ok in Hprops as [_ <-]. }
  unfold PropertyDict_update in Hprops.
  inv_bind Hprops as Hn' n' s0. apply get_obj_Ok in Hn' as [Hn' ->].
  assert (n' = n) as -> by congruence.
  inv_bind Hprops as Hlog. inversion Hlog; subst. clear Hlog.
  destruct u.
  eapply (properties_step fuel n x) in Hprops.
  - destruct Hprops as (Hg & l & Hl & Hnd & Hfl & Hrk). simpl in *.
    assert (x ∉ l) as Hxl.
    { intros Hx. destruct (Hrk rank0) as (rank' & _ & _ & Hb); [done|eauto|].
      specialize (Hb x Hx). simpl in Hb. assert (rank0 x < rank0 x); [eauto|lia]. }
    split.
    { eapply grows_trans; [exact Hg|]. by eapply grows_put. }
    exists (x :: l). split; [simpl; by rewrite Hl, <- app_assoc|].
    split; [by constructor|].
    split.
    + intros k [->|Hk]%elem_of_cons.
      * split.
        -- intros (nx & Hnx & Hfx). congruence.
        -- exists (set_flag true m). split; [simpl; apply lookup_insert_eq|done].
      * destruct (Hfl k Hk) as [Hnf Hf]. split; [done|].
        eapply grows_flagged; [|exact Hf]. by eapply grows_put.
    + intros rank Hdag Hx.
      destruct (Hrk rank Hdag Hx) as (rank' & Hdag' & Hag & Hb).
      exists rank'. split; [by eapply dag_put|]. split; [done|].
      intros k [->|Hk]%elem_of_cons Hks; [done|].
      specialize (Hb k Hk Hks). simpl in Hb. lia.
  - intros c s1 r1 s1' Hd Hupd. by eapply IH.
  - intros kv Hkv. unfold rules_of. apply list_elem_of_fmap. by exists kv.
  - split; [by exists rank0|]. by exists n.
Qed.

Lemma update_at_most_once rank fuel x s r s' j :
  dag rank s → update fuel x s = Ok (r, s') →
  times_resampled j s' ≤ times_resampled j s + 1.
Proof.
  intros Hdag H. apply update_pass_step in H as [_ (_ & l & Hl & Hnd & _)]; [|eauto].
  unfold times_resampled. rewrite Hl, filter_app, length_app.
  pose proof (count_NoDup j l Hnd). lia.
Qed.

End NewPasses.

(** * The claims of the specification *)

Import Examples.

(** ** Helper facts about the guards *)

Lemma update_in_history fuel self history s n :
  Old.heap s !! self = Some n → self ∈ history →
  Old.__update__ (S fuel) self history s = Ok (history, s).
Proof.
  intros Hn Hin. cbn [Old.__update__].
  rewrite (bind_step _ _ _ _ _ (OldFacts.old_get_obj_lookup _ _ _ Hn)).
  by rewrite bool_decide_eq_true_2.
Qed.

Lemma update_flagged fuel self s n :
  New.heap s !! self = Some n → New.has_updated_since_last_resolve n = true →
  New.update (S fuel) self s
  = Ok (self, New.set_heap (<[self := New.set_flag true n]> (New.heap s)) s).
Proof.
  intros Hn Hflag. rewrite NewDuplicate.update_unfold.
  rewrite (bind_step _ _ _ _ _ (NewFacts.get_obj_lookup _ _ _ Hn)).
  rewrite Hflag.
  rewrite (bind_step _ _ _ _ _ (eq_refl : mret (M := M New.state) tt s = Ok (tt, s))).
  by rewrite (bind_step _ _ _ _ _ (NewFacts.get_obj_lookup _ _ _ Hn)).
Qed.

Lemma new_shared_dag : New.dag (λ k, k) new_shared.
Proof.
  intros x n c Hx Hc. unfold new_shared, new_with in Hx. cbn in Hx.
  apply lookup_insert_Some in Hx as [[<- <-]|[_ Hx]].
  { by apply elem_of_nil in Hc. }
  apply lookup_insert_Some in Hx as [[<- <-]|[_ Hx]]; [|by rewrite lookup_empty in Hx].
  assert (c = 0) as ->.
  { cbn in Hc. repeat (apply elem_of_cons in Hc as [->|Hc]; [done|]).
    by apply elem_of_nil in Hc. }
  split; [by eexists|lia].
Qed.

(** C1: two consecutive resolve calls on the same node, with no update in
    between, return the same canvas, payload and provenance.  In the older
    engine the first call leaves its result in [cache] and every later call,
    whatever its arguments, returns that cache and leaves the store as it is;
    in the newer engine, which has no cache, the second call computes the same
    canvas again. *)
Theorem resolve_twice_identical :
  (∀ fuel fuel' self sh sh' kwargs kwargs' s r s',
      Old.__resolve__ fuel self sh kwargs s = Ok (r, s') →
      (∃ n, Old.heap s' !! self = Some n ∧ Old.cache n = Some r)
      ∧ Old.__resolve__ (S fuel') self sh' kwargs' s' = Ok (r, s'))
  ∧ (∀ fuel self image global_kwargs s r s',
      New.resolve fuel self image global_kwargs s = Ok (r, s') →
      ∃ s'', New.resolve fuel self image global_kwargs s' = Ok (r, s'')).
Proof.
  split.
  - intros fuel fuel' self sh sh' kwargs kwargs' s r s' Hres.
    destruct (OldFacts.resolve_stores_cache _ _ _ _ _ _ _ Hres) as (n & Hn & Hc).
    split; [by exists n|]. by eapply OldFacts.resolve_cached.
  - intros fuel self image global_kwargs s r s'. apply NewResolve.resolve_again.
Qed.

Lemma resolve_twice_identical_witness :
  (∃ r s', Old.__resolve__ 2 0 (1, 1) [] old_source = Ok (r, s')
           ∧ Old.__resolve__ 1 0 (2, 2) [] s' = Ok (r, s'))
  ∧ (∃ r s' s'', New.resolve 1 0 blank [] new_single = Ok (r, s')
                 ∧ New.resolve 1 0 blank [] s' = Ok (r, s'')).
Proof.
  split.
  - eexists _, _. split; [vm_compute; reflexivity|].
    apply (proj1 resolve_twice_identical 2 0 0 (1, 1) (2, 2) [] [] old_source).
    vm_compute. reflexivity.
  - assert (∃ r s', New.resolve 1 0 blank [] new_single = Ok (r, s')) as (r & s' & H).
    { eexists _, _. vm_compute. reflexivity. }
    destruct (proj2 resolve_twice_identical 1 0 blank [] new_single r s' H) as [s'' H'].
    by exists r, s', s''.
Defined.

(** C2: in one update pass a feature is resampled at most once, however many
    paths lead to it.  In the older engine [__rupdate__] threads the history
    list, and [__update__] on a feature that is in the history changes
    nothing; in the newer engine, on a graph that is a DAG, [update] resamples
    a feature only while its flag [has_updated_since_last_resolve] is not
    set, and on a feature whose flag is set it resamples nothing. *)
Theorem resampled_at_most_once :
  (∀ fuel self history s history' s' j,
      Old.__rupdate__ fuel self history s = Ok (history', s') →
      Old.times_resampled j s' ≤ Old.times_resampled j s + 1)
  ∧ (∀ fuel self history s n,
      Old.heap s !! self = Some n → self ∈ history →
      Old.__update__ (S fuel) self history s = Ok (history, s))
  ∧ (∀ rank fuel x s r s' j,
      New.dag rank s → New.update fuel x s = Ok (r, s') →
      New.times_resampled j s' ≤ New.times_resampled j s + 1)
  ∧ (∀ fuel self s n,
      New.heap s !! self = Some n → New.has_updated_since_last_resolve n = true →
      ∃ s', New.update (S fuel) self s = Ok (self, s')
            ∧ New.resampled s' = New.resampled s).
Proof.
  split; [|split; [|split]].
  - intros fuel self history s history' s' j. apply OldPasses.rupdate_at_most_once.
  - intros fuel self history s n. apply update_in_history.
  - intros rank fuel x s r s' j. apply NewPasses.update_at_most_once.
  - intros fuel self s n Hn Hflag. eexists. split; [by apply update_flagged|done].
Qed.

Lemma resampled_at_most_once_witness :
  (∃ history' s', Old.__rupdate__ 4 1 [] old_shared = Ok (history', s')
                  ∧ Old.times_resampled 0 s' ≤ Old.times_resampled 0 old_shared + 1)
  ∧ (∃ r s', New.update 3 1 new_shared = Ok (r, s')
             ∧ New.times_resampled 0 s' ≤ New.times_resampled 0 new_shared + 1).
Proof.
  split.
  - eexists _, _. split; [vm_compute; reflexivity|].
    eapply (proj1 resampled_at_most_once 4 1 [] old_shared).
    vm_compute. reflexivity.
  - eexists _, _. split; [vm_compute; reflexivity|].
    eapply (proj1 (proj2 (proj2 resampled_at_most_once)) (λ k, k) 3 1 new_shared).
    + exact new_shared_dag.
    + vm_compute. reflexivity.
Defined.

(** The shared feature of the two graphs is resampled exactly once. *)
Lemma shared_resampled_once :
  (∃ history' s', Old.__rupdate__ 4 1 [] old_shared = Ok (history', s')
                  ∧ Old.resampled s' = [1; 0])
  ∧ (∃ r s', New.update 3 1 new_shared = Ok (r, s') ∧ New.resampled s' = [1; 0]).
Proof. split; eexists _, _; split; vm_compute; reflexivity. Qed.




Lemma old_loop_plain : Old.plain_cycle (λ x, x = 0) (Old.heap old_loop).
Proof.
  intros x ->. exists (old_feature None (Some (Old.PFeature 0)) None), 0.
  split; [reflexivity|]. split; [reflexivity|]. split; [reflexivity|].
  repeat constructor.
Qed.

Lemma old_loop_cycle : Old.upstream_cycle (λ x, x = 0) old_loop.
Proof.
  intros x Hx. destruct (old_loop_plain x Hx) as (n & p & Hn & Hp & Hc & _).
  by exists n, p.
Qed.

Lemma old_loop_uncached x n :
  x = 0 → Old.heap old_loop !! x = Some n → Old.cache n = None.
Proof. intros -> Hn. vm_compute in Hn. by injection Hn as <-. Qed.

(** C4 (as the code has it): neither [__resolve__] nor [__rupdate__] looks
    for a cycle.  When the parent references of features without a cached
    result form a cycle, [__resolve__] follows them until the call stack is
    exhausted, whatever depth the stack allows, and so does [__rupdate__]
    when the features of the cycle only have distributions as parameters:
    the caller gets Python's [RecursionError]. *)
Theorem cycle_exhausts_stack :
  (∀ (C : ident → Prop) s sh kwargs fuel self,
      Old.upstream_cycle C s →
      (∀ x n, C x → Old.heap s !! x = Some n → Old.cache n = None) →
      C self →
      Old.__resolve__ fuel self sh kwargs s = Raise RecursionError)
  ∧ (∀ (C : ident → Prop) fuel self history s,
      Old.plain_cycle C (Old.heap s) → C self →
      Old.__rupdate__ fuel self history s = Raise RecursionError).
Proof.
  split.
  - intros C s sh kwargs fuel self Hcyc Hcache Hself.
    by apply (OldPasses.resolve_cycle C).
  - intros C fuel self history s Hcyc Hself. by apply (OldPasses.rupdate_cycle C).
Qed.

Lemma cycle_exhausts_stack_witness :
  Old.__resolve__ 50 0 (1, 1) [] old_loop = Raise RecursionError
  ∧ Old.__rupdate__ 50 0 [] old_loop = Raise RecursionError.
Proof.
  split.
  - apply (proj1 cycle_exhausts_stack (λ x, x = 0)).
    + exact old_loop_cycle.
    + exact old_loop_uncached.
    + reflexivity.
  - apply (proj2 cycle_exhausts_stack (λ x, x = 0)).
    + exact old_loop_plain.
    + reflexivity.
Defined.

(** Against C4: on a feature that is its own parent, update and resolve end
    in [RecursionError] when the stack is as deep as Python allows. *)
Lemma cycle_not_detected :
  Old.__rupdate__ Old.recursion_limit 0 [] old_loop = Raise RecursionError
  ∧ Old.__resolve__ Old.recursion_limit 0 (1, 1) [] old_loop = Raise RecursionError.
Proof.
  split.
  - apply (OldPasses.rupdate_cycle (λ x, x = 0)); [exact old_loop_plain|reflexivity].
  - apply (OldPasses.resolve_cycle (λ x, x = 0));
      [exact old_loop_cycle|exact old_loop_uncached|reflexivity].
Qed.

Lemma Q2Qc_0 : Q2Qc (inject_Z 0) = 0%Qc.
Proof. by apply Qc_is_canon. Qed.

Lemma Q2Qc_1 : Q2Qc (inject_Z 1) = 1%Qc.
Proof. by apply Qc_is_canon. Qed.

(** C5 (as the code has it): the gate of the newer engine tests
    [random_number < probability]: with probability 1 it applies for every
    draw below 1 and with probability 0 it skips for every draw from 0 on.
    The older engine tests [np.random.rand() <= p]: with probability 1 it
    applies for every draw, with probability 0 it skips for every draw above
    0, but at the draw 0 the test [0 <= 0] holds and a source feature with
    [probability = 0] applies its transformation to the zero canvas and
    records it. *)
Theorem gate_extremes :
  (∀ r, (r < 1)%Qc →
        New.lt_values (Some (New.PData (VFloat r))) (Some (New.PData (VInt 1))) = Ok true)
  ∧ (∀ r, (0 ≤ r)%Qc →
          New.lt_values (Some (New.PData (VFloat r))) (Some (New.PData (VInt 0))) = Ok false)
  ∧ (∀ r, (r ≤ 1)%Qc → Old.draw_le r (VInt 1) = Ok true)
  ∧ (∀ r, (0 < r)%Qc → Old.draw_le r (VInt 0) = Ok false)
  ∧ (∀ fuel self sh kwargs s n,
      Old.heap s !! self = Some n →
      Old.cls n = Old.UserFeature → Old.parent n = None → Old.cache n = None →
      Forall Old.is_dist (Old.__properties__ n) →
      keys_clash (Old.snapshot n) kwargs = false →
      Old.probability n = Some (VInt 0) →
      Old.rand s (Old.drawn s) = 0%Qc →
      let canvas := Image_of_array (zeros (Old.input_shape_fn n sh)) in
      let out := append (Old.get_fn n sh canvas (Old.snapshot n ++ kwargs))
                        (dict_set (Old.snapshot n) "name" (VStr (Old.__name__ n))) in
      Old.__resolve__ (S (S fuel)) self sh kwargs s
      = Ok (out, Old.drawn_and_cached self n out s)).
Proof.
  split; [exact NewFacts.lt_values_one|].
  split; [exact NewFacts.lt_values_zero|].
  split; [|split].
  - intros r Hr. unfold Old.draw_le. simpl. rewrite Q2Qc_1.
    by rewrite bool_decide_eq_true_2.
  - intros r Hr. unfold Old.draw_le. simpl. rewrite Q2Qc_0.
    rewrite bool_decide_eq_false_2; [done|]. by apply Qclt_not_le.
  - intros fuel self sh kwargs s n Hn Hcls Hpar Hc Hd Hclash Hp Hr canvas out.
    assert (number (default (VInt 1) (Old.probability n)) = Some 0%Qc) as Hq.
    { rewrite Hp. simpl. by rewrite Q2Qc_0. }
    pose proof (OldFacts.resolve_source fuel self sh kwargs s n 0%Qc
                  Hn Hcls Hpar Hc Hd Hclash Hq) as H.
    cbv zeta in H. rewrite Hr in H.
    rewrite bool_decide_eq_true_2 in H; [exact H|]. apply Qcle_refl.
Qed.

Lemma gate_extremes_witness :
  New.lt_values (Some (New.PData (VFloat half))) (Some (New.PData (VInt 1))) = Ok true
  ∧ New.lt_values (Some (New.PData (VFloat 0%Qc))) (Some (New.PData (VInt 0))) = Ok false
  ∧ Old.draw_le half (VInt 1) = Ok true
  ∧ Old.draw_le half (VInt 0) = Ok false
  ∧ ∃ s', Old.__resolve__ 2 0 (1, 1) [] old_never
          = Ok (mkImage [[1%Z]] [[("k", VInt 3); ("name", VStr "AddOne")]], s').
Proof.
  split; [apply (proj1 gate_extremes half); reflexivity|].
  split; [apply (proj1 (proj2 gate_extremes) 0%Qc); by vm_compute|].
  split; [apply (proj1 (proj2 (proj2 gate_extremes)) half); by vm_compute|].
  split; [apply (proj1 (proj2 (proj2 (proj2 gate_extremes))) half); reflexivity|].
  eexists.
  apply (proj2 (proj2 (proj2 (proj2 gate_extremes))) 0 0 (1, 1) [] old_never
           (old_feature (Some (VInt 0)) None None)); try reflexivity.
  repeat constructor.
Defined.

(** The gate the older engine builds with [*] cannot be resolved: a group
    reads [current_value] on the feature it groups. *)
Lemma old_product_raises :
  outcome ((g ← Old.__mul__ 0 (VInt 1) ; Old.__resolve__ 5 g (1, 1) []) old_source)
  = Raise AttributeError.
Proof. vm_compute. reflexivity. Qed.

(** C6 (as the code has it): when the draw exceeds the probability, resolve
    returns the input canvas and no marker is recorded anywhere.  The older
    engine returns the canvas it started from as it is, with no provenance
    entry added, and caches it.  In the newer engine the gate returns its
    input and [resolve] then records, only when the requested verbosity is at
    least the 2 of the class, the ordinary entry: the parameters of the gate
    and its name. *)
Theorem skipped_gate_passes_input :
  (∀ fuel self sh kwargs s n image s1 m q,
      Old.heap s !! self = Some n → Old.cache n = None →
      Old.input_image (λ p, Old.__resolve__ fuel p sh kwargs)
                      (Old.__input_shape__ fuel self sh) n s = Ok (image, s1) →
      Old.heap s1 !! self = Some m →
      number (default (VInt 1) (Old.probability n)) = Some q →
      (q < Old.rand s1 (Old.drawn s1))%Qc →
      Old.__resolve__ (S fuel) self sh kwargs s
      = Ok (image, Old.drawn_and_cached self m image s1))
  ∧ (∀ fuel self image global_kwargs s n go,
      New.heap s !! self = Some n → New.cls n = New.Probability →
      New.gate_decision self global_kwargs s = Ok false →
      New.verbosity_le (New.__property_verbosity__ n)
        (default (New.PData (VInt 1)) (dict_get global_kwargs "property_verbosity"))
      = Ok go →
      New.resolve (S fuel) self image global_kwargs s
      = Ok (if go
            then append image (dict_set (New.feature_input n global_kwargs) "name"
                                        (New.PData (VStr (New.__name__ n))))
            else image,
            New.set_heap (<[self := New.set_flag false n]> (New.heap s)) s)).
Proof.
  split.
  - intros fuel self sh kwargs s n image s1 m q Hn Hc Him Hm Hq Hlt.
    eapply OldFacts.resolve_skip; try eassumption.
    unfold Old.draw_le. rewrite Hq. f_equal.
    apply bool_decide_eq_false_2. by apply Qclt_not_le.
  - intros fuel self image global_kwargs s n go Hn Hcls Hgate Hgo.
    by rewrite (NewFacts.resolve_gate_skip fuel self image global_kwargs s n go).
Qed.

Lemma skipped_gate_passes_input_witness :
  (∃ s', Old.__resolve__ 2 0 (1, 1) [] old_skipping
         = Ok (Image_of_array (zeros (1, 1)), s'))
  ∧ (∃ s', New.resolve 2 1 blank [] (new_gate (VInt 0)) = Ok (blank, s')).
Proof.
  split; eexists.
  - apply (proj1 skipped_gate_passes_input 1 0 (1, 1) [] old_skipping
             (old_feature (Some (VInt 0)) None None)
             (Image_of_array (zeros (1, 1))) old_skipping
             (old_feature (Some (VInt 0)) None None) 0%Qc); try reflexivity.
  - eapply (proj2 skipped_gate_passes_input 1 1 blank [] (new_gate (VInt 0)) _ false);
      reflexivity.
Defined.

(** Against C6: the older engine returns the zero canvas with an empty
    provenance when the draw 1/2 exceeds the probability 0, and the newer
    engine, asked to record at verbosity 2, records the three parameters of
    the gate and its name, and nothing that marks the skip. *)
Lemma skip_leaves_no_marker :
  (∃ s', Old.__resolve__ 2 0 (1, 1) [] old_skipping = Ok (mkImage [[0%Z]] [], s'))
  ∧ (∃ s', New.resolve 2 1 blank [("property_verbosity", New.PData (VInt 2))]
                       (new_gate (VInt 0))
           = Ok (mkImage [[0%Z]]
                   [[("feature", New.PFeature 0);
                     ("probability", New.PData (VInt 0));
                     ("random_number", New.PData (VFloat half));
                     ("property_verbosity", New.PData (VInt 2));
                     ("name", New.PData (VStr "Probability"))]], s')).
Proof. split; eexists; vm_compute; reflexivity. Qed.




(** C8 (as the code has it): a user-defined feature with no parent and no
    cached result, whose parameters are distributions that do not clash with
    the keyword arguments, starts from the zero canvas of shape
    [__input_shape__(shape)].  When the draw is at most the probability, the
    result is [get] applied to that canvas, with one provenance entry; when
    not, it is the zero canvas itself.  Either way the result is cached. *)
Theorem source_starts_from_zeros :
  ∀ fuel self sh kwargs s n q,
    Old.heap s !! self = Some n →
    Old.cls n = Old.UserFeature → Old.parent n = None → Old.cache n = None →
    Forall Old.is_dist (Old.__properties__ n) →
    keys_clash (Old.snapshot n) kwargs = false →
    number (default (VInt 1) (Old.probability n)) = Some q →
    let canvas := Image_of_array (zeros (Old.input_shape_fn n sh)) in
    let out :=
      if bool_decide (Old.rand s (Old.drawn s) ≤ q)%Qc
      then append (Old.get_fn n sh canvas (Old.snapshot n ++ kwargs))
                  (dict_set (Old.snapshot n) "name" (VStr (Old.__name__ n)))
      else canvas in
    Old.__resolve__ (S (S fuel)) self sh kwargs s
    = Ok (out, Old.drawn_and_cached self n out s).
Proof. intros fuel self sh kwargs s n q. apply OldFacts.resolve_source. Qed.

Lemma source_starts_from_zeros_witness :
  ∃ s', Old.__resolve__ 2 0 (1, 2) [] old_source
        = Ok (mkImage [[1%Z; 1%Z]] [[("k", VInt 3); ("name", VStr "AddOne")]], s').
Proof.
  eexists.
  apply (source_starts_from_zeros 0 0 (1, 2) [] old_source
           (old_feature None None None) 1%Qc); try reflexivity.
  repeat constructor.
Defined.

(** Against C8: a feature with no parent that holds a cached one-pixel result
    returns it when resolved for the shape (2, 2), and a feature whose draw
    exceeds its probability returns the zero canvas untransformed. *)
Lemma source_not_from_zeros :
  Old.__resolve__ 2 0 (2, 2) [] old_cached = Ok (mkImage [[7%Z]] [], old_cached)
  ∧ ∃ s', Old.__resolve__ 2 0 (1, 1) [] old_skipping = Ok (mkImage [[0%Z]] [], s').
Proof. split; [reflexivity|]. eexists. vm_compute. reflexivity. Qed.

(** C9: for a key whose slot holds a distribution or a feature of the store,
    [set_property(key, value)] stores the key and a following
    [get_property(key)] returns it, whatever the value.  The code departs from
    this on one slot: [Load.__init__] stores the path string itself in
    [__properties__], not wrapped as [Feature.__init__] wraps its keyword
    arguments, and on a slot that holds a string [set_property] raises
    [AttributeError] instead of storing the key. *)
Theorem set_property_stores_key :
  (∀ s self key val n e,
      Old.heap s !! self = Some n →
      dict_get (Old.__properties__ n) key = Some e →
      match e with
      | Old.EDist _ => True
      | Old.EFeature f => is_Some (Old.heap s !! f)
      | Old.EStr _ => False
      end →
      ∃ s', Old.set_property self key val s = Ok (tt, s')
            ∧ Old.get_property self key s' = Ok (VStr key, s'))
  ∧ (∀ s self key val n p,
      Old.heap s !! self = Some n →
      dict_get (Old.__properties__ n) key = Some (Old.EStr p) →
      Old.set_property self key val s = Raise AttributeError).
Proof.
  split.
  - intros s self key val n e. apply OldFacts.set_property_get_property.
  - intros s self key val n p Hn Hkey. unfold Old.set_property.
    rewrite (bind_step _ _ _ _ _ (OldFacts.old_get_obj_lookup _ _ _ Hn)).
    by rewrite Hkey.
Qed.

Lemma set_property_stores_key_witness :
  (∃ s', Old.set_property 0 "k" (VInt 5) old_source = Ok (tt, s')
         ∧ Old.get_property 0 "k" s' = Ok (VStr "k", s'))
  ∧ Old.set_property 0 "path" (VInt 5) old_loaded = Raise AttributeError.
Proof.
  split.
  - apply (proj1 set_property_stores_key old_source 0 "k" (VInt 5)
             (old_feature None None None)
             (Old.EDist (Old.mkDistribution (Old.Constant (VInt 3)) (VInt 3))));
      [reflexivity|reflexivity|exact I].
  - eapply (proj2 set_property_stores_key old_loaded 0 "path" (VInt 5)); reflexivity.
Defined.

(** The input on which the code fails C9: [path] is a key of the parameter
    dict of a [Load], and both [set_property] and [get_property] on it
    raise. *)
Lemma set_property_on_path_raises :
  (∃ n, Old.heap old_loaded !! 0 = Some n
        ∧ dict_get (Old.__properties__ n) "path" = Some (Old.EStr "data"))
  ∧ Old.set_property 0 "path" (VStr "other") old_loaded = Raise AttributeError
  ∧ Old.get_property 0 "path" old_loaded = Raise AttributeError.
Proof. split; [eexists; split; reflexivity|]. split; reflexivity. Qed.



(** The gate with probability 1 that drew 1/2 applies its feature, at every
    resolve. *)
Lemma gate_applies_twice :
  ∃ s' s'', New.resolve 2 1 blank [] (new_gate (VInt 1))
            = Ok (mkImage [[1%Z]] [[("k", New.PData (VInt 3));
                                    ("name", New.PData (VStr "AddOne"))]], s')
            ∧ New.resolve 2 1 blank [] s'
              = Ok (mkImage [[1%Z]] [[("k", New.PData (VInt 3));
                                      ("name", New.PData (VStr "AddOne"))]], s'').
Proof. eexists _, _. split; [vm_compute; reflexivity|]. vm_compute. reflexivity. Qed.

(** * Further properties of the older engine *)

Module OldMore.
Import Old.

Lemma set_cache_eta (n : Feature) : set_parent (parent n) (set_properties (__properties__ n) n) = n.
Proof. by destruct n. Qed.

Lemma get_property_unfold self key s n :
  heap s !! self = Some n →
  get_property self key s
  = match dict_get (__properties__ n) key with
    | None => Raise KeyError
    | Some e => entry_current_value e s
    end.
Proof.
  intros Hn. unfold get_property.
  rewrite (bind_step _ _ _ _ _ (OldFacts.old_get_obj_lookup _ _ _ Hn)).
  by destruct (dict_get (__properties__ n) key).
Qed.

Lemma getRoot_Ok :
  ∀ fuel self s r s',
    getRoot fuel self s = Ok (r, s') →
    s' = s ∧ ∃ n, heap s !! r = Some n ∧ parent n = None.
Proof.
  induction fuel as [|fuel IH]; intros self s r s' H; [done|].
  simpl in H. inv_bind H as Hn n σ. apply OldFacts.old_get_obj_Ok in Hn as [Hn ->].
  destruct (parent n) as [[a|im|p]|] eqn:Hp; try done.
  - by apply IH in H.
  - apply mret_Ok in H as [<- <-]. split; [done|]. by exists n.
Qed.

Lemma group_member_raises {B} self s n g (k : ident → M state B) :
  heap s !! self = Some n →
  dict_get (__properties__ n) "group" = Some (EFeature g) →
  is_Some (heap s !! g) →
  (v ← get_property self "group" ; f ← lift (as_feature v) ; k f) s
  = Raise AttributeError.
Proof.
  intros Hn Hkey [m Hm].
  assert (get_property self "group" s
          = match attr_current_value m with
            | Some v => Ok (v, s)
            | None => Raise AttributeError
            end) as Hget.
  { rewrite (get_property_unfold _ _ _ _ Hn), Hkey. simpl.
    rewrite (bind_step _ _ _ _ _ (OldFacts.old_get_obj_lookup _ _ _ Hm)).
    by destruct (attr_current_value m). }
  destruct (attr_current_value m) as [v|].
  - rewrite (bind_step _ _ _ _ _ Hget). by apply bind_Raise.
  - by apply bind_Raise.
Qed.

Lemma setParent_group fuel self F s n g :
  heap s !! self = Some n → cls n = Group →
  dict_get (__properties__ n) "group" = Some (EFeature g) →
  is_Some (heap s !! g) →
  setParent (S fuel) self F s = Raise AttributeError.
Proof.
  intros Hn Hcls Hkey Hg. cbn [setParent].
  rewrite (bind_step _ _ _ _ _ (OldFacts.old_get_obj_lookup _ _ _ Hn)).
  rewrite Hcls.
  rewrite (bind_step (put_obj self (set_parent (Some F) n)) _ s tt _ eq_refl).
  eapply (group_member_raises self _ (set_parent (Some F) n) g).
  - apply OldFacts.heap_put.
  - done.
  - simpl. destruct (decide (self = g)) as [->|Hne].
    + rewrite lookup_insert_eq. by eexists.
    + by rewrite lookup_insert_ne.
Qed.

Lemma group_cannot_resolve fuel self sh kwargs s n g :
  heap s !! self = Some n → cls n = Group → parent n = None → cache n = None →
  dict_get (__properties__ n) "group" = Some (EFeature g) →
  is_Some (heap s !! g) →
  __resolve__ (S (S fuel)) self sh kwargs s = Raise AttributeError.
Proof.
  intros Hn Hcls Hpar Hc Hkey Hg.
  assert (__input_shape__ (S fuel) self sh s = Raise AttributeError) as Hshape.
  { cbn [__input_shape__].
    rewrite (bind_step _ _ _ _ _ (OldFacts.old_get_obj_lookup _ _ _ Hn)).
    rewrite Hcls. by eapply group_member_raises. }
  cbn [__resolve__].
  rewrite (bind_step _ _ _ _ _ (OldFacts.old_get_obj_lookup _ _ _ Hn)).
  rewrite Hc. apply bind_Raise. unfold input_image. rewrite Hpar.
  by apply bind_Raise.
Qed.

End OldMore.



(** X2: [set_property] on a parameter that is a distribution changes that
    parameter only: every other object of the store is as it was, and
    [get_property] under any other key returns what it returned before. *)
Theorem set_property_keeps_others s self key val n d s' :
  Old.heap s !! self = Some n →
  dict_get (Old.__properties__ n) key = Some (Old.EDist d) →
  Old.set_property self key val s = Ok (tt, s') →
  (∀ k, k ≠ self → Old.heap s' !! k = Old.heap s !! k)
  ∧ ∀ key', key' ≠ key →
            outcome (Old.get_property self key' s') = outcome (Old.get_property self key' s).
Proof.
  intros Hn Hkey H. unfold Old.set_property in H.
  rewrite (bind_step _ _ _ _ _ (OldFacts.old_get_obj_lookup _ _ _ Hn)) in H.
  rewrite Hkey in H. injection H as <-. split.
  - intros k Hk. simpl. by rewrite lookup_insert_ne.
  - intros key' Hne.
    rewrite (OldMore.get_property_unfold _ _ _ _ (OldFacts.heap_put _ _ _)).
    rewrite (OldMore.get_property_unfold _ _ _ _ Hn). simpl.
    rewrite dict_get_set_ne by done.
    destruct (dict_get (Old.__properties__ n) key') as [[d'|f|p]|]; try done.
    simpl. unfold mbind, M_bind, Old.get_obj. simpl.
    destruct (decide (f = self)) as [->|Hf].
    + rewrite lookup_insert_eq, Hn. simpl. by destruct (Old.attr_current_value n).
    + rewrite lookup_insert_ne by done.
      destruct (Old.heap s !! f) as [m|]; [|done]. by destruct (Old.attr_current_value m).
Qed.

Lemma set_property_keeps_others_witness :
  ∃ s', Old.set_property 0 "k" (VInt 9) Examples.old_pair = Ok (tt, s')
        ∧ Old.heap s' !! 1 = Old.heap Examples.old_pair !! 1
        ∧ outcome (Old.get_property 0 "name" s')
          = outcome (Old.get_property 0 "name" Examples.old_pair).
Proof.
  eexists. split; [vm_compute; reflexivity|].
  pose proof (set_property_keeps_others Examples.old_pair 0 "k" (VInt 9)
                (Examples.old_feature None None None)
                (Old.mkDistribution (Old.Constant (VInt 3)) (VInt 3)) _
                eq_refl eq_refl eq_refl) as [Hothers Hkeys].
  split; [by apply Hothers|by apply Hkeys].
Defined.

(** X3: [getRoot] changes nothing and, when it returns, returns a feature
    without a parent, which is its own root; on a feature whose parent is an
    array it raises [AttributeError]. *)
Theorem getRoot_returns_root :
  (∀ fuel self s r s',
      Old.getRoot fuel self s = Ok (r, s') →
      s' = s ∧ (∃ n, Old.heap s !! r = Some n ∧ Old.parent n = None)
      ∧ ∀ fuel', Old.getRoot (S fuel') r s = Ok (r, s))
  ∧ (∀ fuel self s n a,
      Old.heap s !! self = Some n → Old.parent n = Some (Old.PArray a) →
      Old.getRoot (S fuel) self s = Raise AttributeError).
Proof.
  split.
  - intros fuel self s r s' H.
    destruct (OldMore.getRoot_Ok _ _ _ _ _ H) as [-> (n & Hn & Hp)].
    split; [done|]. split; [by exists n|].
    intros fuel'. simpl.
    rewrite (bind_step _ _ _ _ _ (OldFacts.old_get_obj_lookup _ _ _ Hn)).
    by rewrite Hp.
  - intros fuel self s n a Hn Hp. simpl.
    rewrite (bind_step _ _ _ _ _ (OldFacts.old_get_obj_lookup _ _ _ Hn)).
    by rewrite Hp.
Qed.

Lemma getRoot_returns_root_witness :
  (∃ r, Old.getRoot 3 1 Examples.old_shared = Ok (r, Examples.old_shared)
        ∧ Old.getRoot 1 r Examples.old_shared = Ok (r, Examples.old_shared))
  ∧ Old.getRoot 1 0 Examples.old_on_array = Raise AttributeError.
Proof.
  split.
  - exists 0. split; [reflexivity|].
    apply (proj1 getRoot_returns_root 3 1 Examples.old_shared 0 Examples.old_shared).
    reflexivity.
  - apply (proj2 getRoot_returns_root 0 0 Examples.old_on_array
             (Examples.old_feature None (Some (Old.PArray [[5%Z]])) None) [[5%Z]]);
      reflexivity.
Defined.

(** X4: [setParent] succeeds on a user-defined feature without a parent, and
    then changes the parent of that feature only and returns it.  On a
    feature that has a parent it wraps the feature in a group, and [setParent]
    of the group raises [AttributeError] when it reads [current_value] on the
    feature it groups; on a [Load] it raises [Exception]. *)
Theorem setParent_cases :
  (∀ fuel self F s r s',
      Old.setParent fuel self F s = Ok (r, s') →
      r = self
      ∧ ∃ n, Old.heap s !! self = Some n ∧ Old.cls n = Old.UserFeature
             ∧ Old.parent n = None
             ∧ s' = Old.set_heap (<[self := Old.set_parent (Some F) n]> (Old.heap s)) s)
  ∧ (∀ fuel self F s n,
      Old.heap s !! self = Some n → Old.cls n = Old.UserFeature →
      Old.parent n = None →
      Old.setParent (S fuel) self F s
      = Ok (self, Old.set_heap (<[self := Old.set_parent (Some F) n]> (Old.heap s)) s))
  ∧ (∀ fuel self F s n,
      Old.heap s !! self = Some n → Old.cls n = Old.UserFeature →
      is_Some (Old.parent n) →
      Old.setParent (S (S fuel)) self F s = Raise AttributeError)
  ∧ (∀ fuel self F s n,
      Old.heap s !! self = Some n → Old.cls n = Old.Load →
      Old.setParent (S fuel) self F s = Raise Exception).
Proof.
  split; [|split; [|split]].
  - intros fuel self F s r s' H.
    pose proof (OldOperators.setParent_Ok _ _ _ _ _ _ H) as [-> (n & Hn & Hcls & Hp & Hheap)].
    split; [done|]. exists n. repeat split; try done.
    destruct fuel as [|fuel]; [done|]. simpl in H.
    rewrite (bind_step _ _ _ _ _ (OldFacts.old_get_obj_lookup _ _ _ Hn)) in H.
    rewrite Hcls, Hp in H. by injection H as <-.
  - intros fuel self F s n Hn Hcls Hp. simpl.
    rewrite (bind_step _ _ _ _ _ (OldFacts.old_get_obj_lookup _ _ _ Hn)).
    by rewrite Hcls, Hp.
  - intros fuel self F s n Hn Hcls [p Hp]. cbn [Old.setParent].
    rewrite (bind_step _ _ _ _ _ (OldFacts.old_get_obj_lookup _ _ _ Hn)).
    rewrite Hcls, Hp.
    assert (Old.heap s !! fresh (dom (Old.heap s)) = None) as HG.
    { apply not_elem_of_dom. apply is_fresh. }
    rewrite (bind_step (Old.Group_init self) _ s _ _ eq_refl).
    eapply (OldMore.setParent_group _ _ _ _ _ self).
    + apply OldFacts.heap_put.
    + reflexivity.
    + reflexivity.
    + simpl. rewrite lookup_insert_ne by congruence. by eexists.
  - intros fuel self F s n Hn Hcls. simpl.
    rewrite (bind_step _ _ _ _ _ (OldFacts.old_get_obj_lookup _ _ _ Hn)).
    by rewrite Hcls.
Qed.

Lemma setParent_cases_witness :
  (∃ s', Old.setParent 1 1 (Old.PFeature 0) Examples.old_pair = Ok (1, s'))
  ∧ Old.setParent 2 0 (Old.PFeature 1) Examples.old_on_array = Raise AttributeError
  ∧ Old.setParent 1 0 (Old.PFeature 1) Examples.old_loaded = Raise Exception.
Proof.
  split; [|split].
  - eexists.
    apply (proj1 (proj2 setParent_cases) 0 1 (Old.PFeature 0) Examples.old_pair
             (Examples.old_feature None None None)); reflexivity.
  - apply (proj1 (proj2 (proj2 setParent_cases)) 0 0 (Old.PFeature 1)
             Examples.old_on_array
             (Examples.old_feature None (Some (Old.PArray [[5%Z]])) None));
      [reflexivity|reflexivity|by eexists].
  - eapply (proj2 (proj2 (proj2 setParent_cases)) 0 0 (Old.PFeature 1)
              Examples.old_loaded); reflexivity.
Defined.

Module OldBuild.
Import Old.

Lemma copy_distributions (copy : ident → gmap ident ident → M state (ident * gmap ident ident))
    (l : dict entry) :
  Forall is_dist l →
  ∀ props memo s,
    foldM (λ '(props, memo) kv,
             match kv.2 with
             | EFeature f =>
                 '(f', memo) ← copy f memo ;
                 mret (props ++ [(kv.1, EFeature f')], memo)
             | e => mret (props ++ [(kv.1, e)], memo)
             end) (props, memo) l s
    = Ok ((props ++ l, memo), s).
Proof.
  induction 1 as [|[k e] l He _ IH]; intros props memo s; simpl.
  - by rewrite app_nil_r.
  - destruct e as [d| |]; try done. simpl.
    unfold mbind, M_bind, mret, M_ret at 1. rewrite IH.
    by rewrite <- app_assoc.
Qed.

Lemma deepcopy_flat fuel x s n :
  heap s !! x = Some n → cls n = UserFeature →
  Forall is_dist (__properties__ n) →
  (∀ p, parent n ≠ Some (PFeature p)) →
  deepcopy (S fuel) x ∅ s
  = Ok ((fresh (dom (heap s)), <[x := fresh (dom (heap s))]> ∅),
        set_heap (<[fresh (dom (heap s)) := n]> (heap s)) s).
Proof.
  intros Hn Hcls Hd Hp. cbn [deepcopy]. rewrite lookup_empty.
  rewrite (bind_step _ _ _ _ _ (OldFacts.old_get_obj_lookup _ _ _ Hn)).
  rewrite Hcls.
  rewrite (bind_step (alloc n) _ s _ _ eq_refl).
  erewrite bind_step; [|by apply copy_distributions].
  cbv beta iota.
  assert ((match parent n with
           | Some (PFeature p) =>
               '(p', memo) ← deepcopy fuel p (<[x := fresh (dom (heap s))]> ∅) ;
               mret (Some (PFeature p'), memo)
           | par => mret (par, <[x := fresh (dom (heap s))]> ∅)
           end) (set_heap (<[fresh (dom (heap s)) := n]> (heap s)) s)
          = Ok ((parent n, <[x := fresh (dom (heap s))]> ∅),
                set_heap (<[fresh (dom (heap s)) := n]> (heap s)) s)) as Hpar.
  { destruct (parent n) as [[a|im|p]|] eqn:E; try done. by destruct (Hp p). }
  rewrite (bind_step _ _ _ _ _ Hpar). cbv beta iota.
  unfold mbind, M_bind, put_obj, modify, mret, M_ret. simpl.
  rewrite insert_insert_eq. by rewrite OldMore.set_cache_eta.
Qed.

Lemma resolve_user fuel self sh kwargs s n image s1 q :
  heap s !! self = Some n → cls n = UserFeature → cache n = None →
  Forall is_dist (__properties__ n) →
  keys_clash (snapshot n) kwargs = false →
  number (default (VInt 1) (probability n)) = Some q →
  input_image (λ p, __resolve__ fuel p sh kwargs) (__input_shape__ fuel self sh) n s
    = Ok (image, s1) →
  heap s1 !! self = Some n →
  let out := if bool_decide (rand s1 (drawn s1) ≤ q)%Qc
             then applied n sh kwargs image else image in
  __resolve__ (S fuel) self sh kwargs s = Ok (out, drawn_and_cached self n out s1).
Proof.
  intros Hn Hcls Hc Hd Hclash Hq Him Hn1 out.
  rewrite (OldFacts.resolve_from_input _ _ _ _ _ _ _ _ Hn Hc Him).
  unfold np_random_rand, draw_le, lift, mbind, M_bind at 1 2. simpl. rewrite Hq.
  subst out.
  destruct (bool_decide (rand s1 (drawn s1) ≤ q)%Qc).
  - unfold M_bind at 1. unfold M_bind at 1.
    erewrite OldFacts.get_properties_dists; [|exact Hn1|exact Hd].
    rewrite Hclash, Hcls.
    unfold mbind, M_bind, mret, M_ret, get_obj. simpl. rewrite Hn1. done.
  - unfold mbind, M_bind, mret, M_ret, get_obj. simpl. rewrite Hn1. done.
Qed.

Lemma default_probability n :
  probability n = None → number (default (VInt 1) (probability n)) = Some 1%Qc.
Proof. intros ->. simpl. f_equal; by apply Qc_is_canon. Qed.

Lemma attach_copy fuel x F s n :
  heap s !! x = Some n → cls n = UserFeature → parent n = None →
  Forall is_dist (__properties__ n) →
  ('(c, _) ← deepcopy (S fuel) x ∅ ; setParent (S fuel) c F) s
  = Ok (fresh (dom (heap s)),
        set_heap (<[fresh (dom (heap s)) := set_parent (Some F) n]> (heap s)) s).
Proof.
  intros Hn Hcls Hpar Hd.
  erewrite bind_step; [|apply deepcopy_flat; try done; by rewrite Hpar].
  cbv beta iota. cbn [setParent].
  erewrite bind_step; [|apply OldFacts.old_get_obj_lookup, OldFacts.heap_put].
  rewrite Hcls, Hpar.
  unfold mbind, M_bind, put_obj, modify, mret, M_ret. simpl.
  by rewrite insert_insert_eq.
Qed.

Lemma add_Ok self other s n :
  heap s !! other = Some n → cls n = UserFeature → parent n = None →
  Forall is_dist (__properties__ n) →
  __add__ self other s
  = Ok (fresh (dom (heap s)),
        set_heap (<[fresh (dom (heap s)) := set_parent (Some (PFeature self)) n]> (heap s)) s).
Proof.
  intros Hn Hcls Hpar Hd. unfold __add__, recursion_limit.
  exact (attach_copy 999 other (PFeature self) s n Hn Hcls Hpar Hd).
Qed.


Lemma mul_Ok self p s g s' :
  __mul__ self p s = Ok (g, s') →
  ∃ n c, heap s' !! g = Some n ∧ cls n = Group ∧ parent n = None ∧ cache n = None
         ∧ dict_get (__properties__ n) "group" = Some (EFeature c)
         ∧ is_Some (heap s' !! c).
Proof.
  unfold __mul__. intros H. inv_bind H as Hcopy cm s1. destruct cm as [c memo].
  apply OldOperators.deepcopy_kept in Hcopy as [_ Hnew].
  destruct (Hnew (lookup_empty _)) as (_ & no & props & par & _ & Hcopy).
  inv_bind H as HG G s2. apply OldOperators.old_alloc_fresh in HG as [HG Hheap].
  inv_bind H as Hg m s3. apply OldFacts.old_get_obj_Ok in Hg as [Hg ->].
  rewrite Hheap, lookup_insert_eq in Hg. injection Hg as <-.
  inv_bind H as Hput u s4. inversion Hput; subst. apply mret_Ok in H as [<- <-].
  assert (G ≠ c) as Hne by (intros ->; congruence).
  eexists _, c. split; [simpl; apply lookup_insert_eq|].
  repeat split.
  exists (set_parent par (set_properties props no)).
  transitivity (heap s2 !! c); [exact (lookup_insert_ne _ _ _ _ Hne)|].
  rewrite Hheap.
  transitivity (heap s1 !! c); [exact (lookup_insert_ne _ _ _ _ Hne)|exact Hcopy].
Qed.

End OldBuild.

(** X5: [self + other] resolves in sequence.  For two user-defined features
    as their constructors leave them, the sum resolves to [get] of [other]
    applied to [get] of [self] applied to the zero canvas, each followed by
    its provenance entry; the zero canvas has the input shape of [self], the
    input shape of [other] is not used. *)
Theorem add_resolves_in_sequence fuel self other s ns no sh kwargs :
  Old.heap s !! self = Some ns → Old.heap s !! other = Some no →
  Old.pristine ns → Old.pristine no →
  keys_clash (Old.snapshot ns) kwargs = false →
  keys_clash (Old.snapshot no) kwargs = false →
  (Old.rand s (Old.drawn s) ≤ 1)%Qc → (Old.rand s (S (Old.drawn s)) ≤ 1)%Qc →
  outcome ((r ← Old.__add__ self other ;
            Old.__resolve__ (S (S (S fuel))) r sh kwargs) s)
  = Ok (Old.applied no sh kwargs
          (Old.applied ns sh kwargs
             (Image_of_array (zeros (Old.input_shape_fn ns sh))))).
Proof.
  intros Hs Ho (Hscls & Hspar & Hsc & Hsp & Hsd) (Hocls & Hopar & Hoc & Hop & Hod)
    Hsclash Hoclash Hr1 Hr2.
  rewrite (bind_step _ _ _ _ _ (OldBuild.add_Ok self other s no Ho Hocls Hopar Hod)).
  assert (Old.heap s !! fresh (dom (Old.heap s)) = None) as Hy
    by (apply not_elem_of_dom, is_fresh).
  set (y := fresh (dom (Old.heap s))) in *.
  assert (self ≠ y) as Hne by (intros ->; congruence).
  set (ny := Old.set_parent (Some (Old.PFeature self)) no).
  set (s2 := Old.set_heap (<[y := ny]> (Old.heap s)) s).
  assert (Old.heap s2 !! self = Some ns) as Hs2.
  { simpl. by rewrite lookup_insert_ne. }
  set (zero := Image_of_array (zeros (Old.input_shape_fn ns sh))).
  set (mid := Old.applied ns sh kwargs zero).
  assert (Old.__resolve__ (S (S fuel)) self sh kwargs s2
          = Ok (mid, Old.drawn_and_cached self ns mid s2)) as Hfirst.
  { pose proof (OldFacts.resolve_source fuel self sh kwargs s2 ns 1%Qc Hs2 Hscls Hspar
                  Hsc Hsd Hsclash (OldBuild.default_probability _ Hsp)) as H.
    cbv zeta in H. rewrite bool_decide_eq_true_2 in H by exact Hr1. exact H. }
  pose proof (OldBuild.resolve_user (S (S fuel)) y sh kwargs s2 ny mid
                (Old.drawn_and_cached self ns mid s2) 1%Qc) as H.
  cbv zeta in H. rewrite H; clear H.
  - rewrite bool_decide_eq_true_2 by exact Hr2. reflexivity.
  - apply OldFacts.heap_put.
  - exact Hocls.
  - exact Hoc.
  - exact Hod.
  - exact Hoclash.
  - by apply OldBuild.default_probability.
  - unfold Old.input_image. simpl. exact Hfirst.
  - simpl. rewrite lookup_insert_ne by done. apply lookup_insert_eq.
Qed.

Lemma add_resolves_in_sequence_witness :
  outcome ((r ← Old.__add__ 0 1 ; Old.__resolve__ 3 r (1, 1) []) Examples.old_pair)
  = Ok (mkImage [[2%Z]] [[("k", VInt 3); ("name", VStr "AddOne")];
                          [("k", VInt 3); ("name", VStr "AddOne")]]).
Proof.
  apply (add_resolves_in_sequence 0 0 1 Examples.old_pair
           (Examples.old_feature None None None) (Examples.old_feature None None None)
           (1, 1) []); try reflexivity.
  all: repeat split; try reflexivity; try (by vm_compute); repeat constructor.
Defined.



(** X7: the product of the older engine cannot be resolved.  Whatever
    [self * p] returns is a group without a parent, and resolving it raises
    [AttributeError], because the group reads [current_value] on the feature
    it groups to find its input shape. *)
Theorem product_cannot_resolve fuel self p s g s' sh kwargs :
  Old.__mul__ self p s = Ok (g, s') →
  Old.__resolve__ (S (S fuel)) g sh kwargs s' = Raise AttributeError.
Proof.
  intros H.
  destruct (OldBuild.mul_Ok _ _ _ _ _ H) as (n & c & Hg & Hcls & Hpar & Hcache & Hkey & Hc).
  by eapply (OldMore.group_cannot_resolve fuel g sh kwargs s' n c).
Qed.

Lemma product_cannot_resolve_witness :
  ∃ g s', Old.__mul__ 0 (VInt 1) Examples.old_source = Ok (g, s')
          ∧ Old.__resolve__ 2 g (1, 1) [] s' = Raise AttributeError.
Proof.
  eexists _, _. split; [vm_compute; reflexivity|].
  eapply (product_cannot_resolve 0 0 (VInt 1) Examples.old_source).
  vm_compute. reflexivity.
Defined.

Module OldTune.
Import Old.

Lemma retuned_refl s : retuned s s.
Proof. intros k n Hk. exists n. by repeat split. Qed.

Lemma retuned_trans s1 s2 s3 : retuned s1 s2 → retuned s2 s3 → retuned s1 s3.
Proof.
  intros H12 H23 k n Hk.
  destruct (H12 _ _ Hk) as (n2 & Hk2 & ? & ? & ? & ? & ? & ?).
  destruct (H23 _ _ Hk2) as (n3 & Hk3 & ? & ? & ? & ? & ? & ?).
  exists n3. repeat split; congruence.
Qed.

Lemma retuned_same s s' : heap s' = heap s → retuned s s'.
Proof. intros Hh k n Hk. exists n. rewrite Hh. by repeat split. Qed.

Lemma retuned_put s self n n' :
  heap s !! self = Some n →
  cls n' = cls n → __name__ n' = __name__ n → parent n' = parent n →
  cache n' = cache n → probability n' = probability n →
  attr_current_value n' = attr_current_value n →
  retuned s (set_heap (<[self := n']> (heap s)) s).
Proof.
  intros Hn ? ? ? ? ? ? k m Hk. simpl. destruct (decide (k = self)) as [->|Hne].
  - exists n'. rewrite lookup_insert_eq. assert (m = n) as -> by congruence.
    by repeat split.
  - exists m. rewrite lookup_insert_ne by done. by repeat split.
Qed.

Lemma update_distribution_retuned self i key d s u s' :
  update_distribution self i key d s = Ok (u, s') → retuned s s'.
Proof.
  intros H. unfold update_distribution in H. inv_bind H as Hd d' s1.
  inv_bind H as Hm m s2. apply OldFacts.old_get_obj_Ok in Hm as [Hm ->].
  injection H as _ <-.
  apply (retuned_trans _ s1).
  - apply retuned_same. unfold Distribution_update in Hd. destruct (rule d).
    + by apply mret_Ok in Hd as [_ ->].
    + inv_bind Hd as Hr r s0. apply mret_Ok in Hd as [_ ->]. by injection Hr as _ <-.
  - by eapply retuned_put.
Qed.

Lemma update_retuned :
  ∀ fuel self history s history' s',
    __update__ fuel self history s = Ok (history', s') → retuned s s'.
Proof.
  induction fuel as [|fuel IH]; intros self history s history' s' H; [done|].
  simpl in H. inv_bind H as Hn n s0. apply OldFacts.old_get_obj_Ok in Hn as [Hn ->].
  case_bool_decide as Hin.
  { apply mret_Ok in H as [_ ->]. apply retuned_refl. }
  assert (∀ s1 history1,
    foldM_i (λ history i kv,
               match kv.2 with
               | EDist d => update_distribution self i kv.1 d ;; mret history
               | EFeature f => __update__ fuel f history
               | EStr _ => raise AttributeError
               end) 0 history1 (__properties__ n) s1 = Ok (history', s') →
    retuned s1 s') as Hfold.
  { intros s1 history1. apply (foldM_i_inv (λ x y, retuned x.2 y.2)).
    - intros x. apply retuned_refl.
    - intros x y z. apply retuned_trans.
    - intros acc i [k e] σ acc' σ' _ Hbody. destruct e as [d|f|p]; simpl in Hbody.
      + inv_bind Hbody as Hd u σ1. apply mret_Ok in Hbody as [_ ->].
        by eapply update_distribution_retuned.
      + by eapply IH.
      + done. }
  destruct (cls n).
  - inv_bind H as Hlg u s1. injection Hlg as _ <-.
    eapply retuned_trans; [|by eapply Hfold]. by apply retuned_same.
  - inv_bind H as Hlg u s1. injection Hlg as _ <-.
    eapply retuned_trans; [|by eapply Hfold]. by apply retuned_same.
  - inv_bind H as Hnx a s1. injection Hnx as _ <-.
    inv_bind H as Hm m s2. apply OldFacts.old_get_obj_Ok in Hm as [Hm ->].
    inv_bind H as Hput u s3. injection Hput as _ <-.
    apply mret_Ok in H as [_ <-].
    apply (retuned_put s self m); try done.
Qed.

Lemma rupdate_retuned :
  ∀ fuel self history s history' s',
    __rupdate__ fuel self history s = Ok (history', s') → retuned s s'.
Proof.
  induction fuel as [|fuel IH]; intros self history s history' s' H; [done|].
  simpl in H. inv_bind H as Hup h1 s1. apply update_retuned in Hup.
  inv_bind H as Hn n s2. apply OldFacts.old_get_obj_Ok in Hn as [Hn ->].
  destruct (parent n) as [[a|im|p]|]; try done.
  - eapply retuned_trans; [exact Hup|]. by eapply IH.
  - by apply mret_Ok in H as [_ <-].
Qed.

Lemma update_enters_history fuel self history s history' s' :
  __update__ fuel self history s = Ok (history', s') →
  self ∈ history' ∧ ∀ k, k ∈ history → k ∈ history'.
Proof.
  intros H. split; [|by apply (OldPasses.old_update_pass_step _ _ _ _ _ _ H)].
  destruct fuel as [|fuel]; [done|].
  simpl in H. inv_bind H as Hn n s0. apply OldFacts.old_get_obj_Ok in Hn as [Hn ->].
  case_bool_decide as Hin.
  { by apply mret_Ok in H as [<- _]. }
  assert (∀ s1,
    foldM_i (λ history i kv,
               match kv.2 with
               | EDist d => update_distribution self i kv.1 d ;; mret history
               | EFeature f => __update__ fuel f history
               | EStr _ => raise AttributeError
               end) 0 (history ++ [self]) (__properties__ n) s1 = Ok (history', s') →
    self ∈ history') as Hfold.
  { intros s1 Hf.
    assert (∀ k, k ∈ history ++ [self] → k ∈ history') as Hsub.
    { revert Hf.
      apply (foldM_i_inv (λ x y : list ident * state, ∀ k, k ∈ x.1 → k ∈ y.1)).
      - done.
      - intros x y z Hxy Hyz k Hk. by apply Hyz, Hxy.
      - intros acc i [key e] σ acc' σ' _ Hbody. destruct e as [d|f|p]; simpl in Hbody.
        + inv_bind Hbody as Hd u σ1. by apply mret_Ok in Hbody as [-> _].
        + by apply (OldPasses.old_update_pass_step _ _ _ _ _ _ Hbody).
        + done. }
    apply Hsub, elem_of_app. right. by left. }
  destruct (cls n).
  - inv_bind H as Hlg u s1. by eapply Hfold.
  - inv_bind H as Hlg u s1. by eapply Hfold.
  - inv_bind H as Hnx a s1. inv_bind H as Hm m s2. inv_bind H as Hput u s3.
    apply mret_Ok in H as [<- _]. apply elem_of_app. right. by left.
Qed.

End OldTune.

(** X8: an update pass asks a [Load] for one array.  [__update__] on a
    [Load] that is not in the history takes the next array of the iterator,
    stores it in [res] and enters the [Load] in the history; called again with
    that history it changes nothing. *)
Theorem load_update_pulls_once fuel fuel' self history s n :
  Old.heap s !! self = Some n → Old.cls n = Old.Load → self ∉ history →
  let s' := Old.mkState (<[self := Old.set_res (Some (Old.source s (Old.pulled s))) n]>
                           (Old.heap s))
                        (Old.rand s) (Old.drawn s) (Old.source s) (S (Old.pulled s))
                        (Old.resampled s) in
  Old.__update__ (S fuel) self history s = Ok (history ++ [self], s')
  ∧ Old.__update__ (S fuel') self (history ++ [self]) s' = Ok (history ++ [self], s').
Proof.
  intros Hn Hcls Hin s'. split.
  - cbn [Old.__update__].
    rewrite (bind_step _ _ _ _ _ (OldFacts.old_get_obj_lookup _ _ _ Hn)).
    rewrite bool_decide_eq_false_2 by done. rewrite Hcls.
    unfold Old.next_iter, mbind, M_bind, Old.get_obj. simpl. by rewrite Hn.
  - apply (update_in_history fuel' self (history ++ [self]) s'
             (Old.set_res (Some (Old.source s (Old.pulled s))) n)).
    + apply lookup_insert_eq.
    + apply elem_of_app. right. by left.
Qed.

Lemma load_update_pulls_once_witness :
  ∃ s', Old.__update__ 1 0 [] Examples.old_loaded = Ok ([0], s')
        ∧ Old.pulled s' = 1
        ∧ Old.__update__ 1 0 [0] s' = Ok ([0], s').
Proof.
  pose proof (load_update_pulls_once 0 0 0 [] Examples.old_loaded _ eq_refl eq_refl
                (not_elem_of_nil 0)) as [H1 H2].
  eexists. split; [exact H1|]. split; [reflexivity|exact H2].
Defined.

(** X9: [__update__] and [__rupdate__] only extend the history, and when they
    return the feature they were called on is in it. *)
Theorem history_only_grows :
  (∀ fuel self history s history' s',
      Old.__update__ fuel self history s = Ok (history', s') →
      self ∈ history' ∧ ∀ k, k ∈ history → k ∈ history')
  ∧ (∀ fuel self history s history' s',
      Old.__rupdate__ fuel self history s = Ok (history', s') →
      self ∈ history' ∧ ∀ k, k ∈ history → k ∈ history').
Proof.
  split; [exact OldTune.update_enters_history|].
  intros fuel self history s history' s' H.
  pose proof (OldPasses.rupdate_pass_step _ _ _ _ _ _ H) as [Hsub _]. simpl in Hsub.
  split; [|exact Hsub].
  destruct fuel as [|fuel]; [done|]. simpl in H.
  inv_bind H as Hup h1 s1. apply OldTune.update_enters_history in Hup as [Hself _].
  inv_bind H as Hn n s2. apply OldFacts.old_get_obj_Ok in Hn as [Hn ->].
  destruct (Old.parent n) as [[a|im|p]|]; try done.
  - by apply (OldPasses.rupdate_pass_step _ _ _ _ _ _ H).
  - by apply mret_Ok in H as [<- _].
Qed.

Lemma history_only_grows_witness :
  ∃ history' s', Old.__rupdate__ 4 1 [] Examples.old_shared = Ok (history', s')
                 ∧ 1 ∈ history'.
Proof.
  assert (∃ history' s', Old.__rupdate__ 4 1 [] Examples.old_shared = Ok (history', s'))
    as (history' & s' & H).
  { eexists _, _. vm_compute. reflexivity. }
  exists history', s'. split; [exact H|].
  exact (proj1 (proj2 history_only_grows _ _ _ _ _ _ H)).
Defined.

(** X10: an update never invalidates a cache.  [__rupdate__] leaves the
    class, the parent, the cached result and the probability of every feature
    as they were, so a feature that held a cached result before the update
    still returns that result when it is resolved after it. *)
Theorem update_keeps_cache fuel self history s history' s' :
  Old.__rupdate__ fuel self history s = Ok (history', s') →
  Old.retuned s s'
  ∧ ∀ x n c fuel' sh kwargs,
      Old.heap s !! x = Some n → Old.cache n = Some c →
      Old.__resolve__ (S fuel') x sh kwargs s' = Ok (c, s').
Proof.
  intros H. apply OldTune.rupdate_retuned in H. split; [exact H|].
  intros x n c fuel' sh kwargs Hx Hc.
  destruct (H _ _ Hx) as (n' & Hx' & _ & _ & _ & Hc' & _).
  eapply OldFacts.resolve_cached; [exact Hx'|]. by rewrite Hc'.
Qed.

Lemma update_keeps_cache_witness :
  ∃ history' s', Old.__rupdate__ 3 0 [] Examples.old_cached = Ok (history', s')
                 ∧ Old.__resolve__ 1 0 (2, 2) [] s' = Ok (Examples.seven, s').
Proof.
  assert (∃ history' s', Old.__rupdate__ 3 0 [] Examples.old_cached = Ok (history', s'))
    as (history' & s' & H).
  { eexists _, _. vm_compute. reflexivity. }
  exists history', s'. split; [exact H|].
  apply (proj2 (update_keeps_cache _ _ _ _ _ _ H) 0
           (Examples.old_feature None None (Some Examples.seven))); reflexivity.
Defined.

